(** * cloudfool: the article's [DataLoader] class and the MDX component map

    Sources embedded here:
    - [src/articles/use-dataloaders-to-batch-and-queue-database-requests-graphql.mdx],
      the [class DataLoader] listing (constructor, [batchFn], [schedulingFn],
      [load]), and the two caches the article builds before it: the first
      cache and the batching cache;
    - [src/components/mdx/index.tsx], the entries of the map from markup
      element names to styled elements that render an intrinsic element.

    The loader is JavaScript: its cache is an ordinary object used as a map,
    which inherits the members of [Object.prototype]; its keys go through
    [ToPropertyKey] and [Number], and [load] is an async function split in
    two by its [await].  The embedding keeps those pieces apart: JavaScript
    values and conversions, the ordinary object with its own-property order
    and its prototype, the loader record, and a world that holds the timer
    queue, the promises created so far and a trace of the calls made. *)

From Stdlib Require Import ZArith Ascii String DecimalString.
From stdpp Require Import base option list strings pretty sorting gmap.

Open Scope string_scope.
Open Scope list_scope.
Open Scope nat_scope.

(** ** JavaScript values *)

(** Numbers, on the fragment row ids and keys live in: the integers that a
    double holds exactly, and [NaN], which is what [Number] gives for a key
    that is not numeric.  The ids of the rows being integers, a number that
    is not an integer is equal to none of them, no more than [NaN] is. *)
Inductive number :=
  | NaN
  | Int (z : Z).

(** Primitive values that reach the loader as keys or as the [id] of a row. *)
Inductive value :=
  | VUndefined
  | VNull
  | VBool (b : bool)
  | VNum (n : number)
  | VStr (s : string).

#[global] Instance number_eq_dec : EqDecision number.
Proof. solve_decision. Defined.

#[global] Instance value_eq_dec : EqDecision value.
Proof. solve_decision. Defined.

(** [x === y] between two numbers: [NaN] equals nothing, itself included. *)
Definition number_strict_equals (a b : number) : bool :=
  match a, b with
  | Int x, Int y => bool_decide (x = y)
  | _, _ => false
  end.

(** [v === n] where [n] is a number: different types are never equal. *)
Definition strict_equals (v : value) (n : number) : bool :=
  match v with
  | VNum m => number_strict_equals m n
  | _ => false
  end.

(** [ToPropertyKey] on primitives is [ToString]: how [this.promises[key]]
    names the property.  A safe integer (below [2^53] in absolute value)
    prints as its decimal digits; above, a double prints the shortest digits
    that give it back, and in exponent notation from [10^21] on, which this
    definition does not follow: the properties that depend on the name of a
    key are stated for [safe] keys. *)
Definition ToPropertyKey (key : value) : string :=
  match key with
  | VUndefined => "undefined"
  | VNull => "null"
  | VBool true => "true"
  | VBool false => "false"
  | VNum NaN => "NaN"
  | VNum (Int z) => pretty z
  | VStr s => s
  end.

(** [Number.isSafeInteger], for the keys that are numbers. *)
Definition safe (key : value) : bool :=
  match key with
  | VNum (Int z) => bool_decide (Z.abs z < 2 ^ 53)%Z
  | _ => true
  end.

(** [Number(key)].  The conversion of a string is the built-in
    [StringToNumber], taken as a parameter. *)
Definition Number (StringToNumber : string → number) (key : value) : number :=
  match key with
  | VUndefined => NaN
  | VNull => Int 0
  | VBool true => Int 1
  | VBool false => Int 0
  | VNum n => n
  | VStr s => StringToNumber s
  end.

(** [StringToNumber] on decimal integer literals with an optional minus sign
    (the empty string is [0]); every other string is sent to [NaN].  It
    agrees with the built-in on those literals and on words made of letters
    ([Infinity] apart), which is what the string keys of the examples of
    this file are; the properties below hold of any conversion. *)
Definition decimal_StringToNumber (s : string) : number :=
  match s with
  | "" => Int 0
  | String "-"%char t =>
      match NilZero.uint_of_string t with
      | Some d => Int (- Z.of_N (N.of_uint d))
      | None => NaN
      end
  | _ =>
      match NilZero.uint_of_string s with
      | Some d => Int (Z.of_N (N.of_uint d))
      | None => NaN
      end
  end.

(** ** Ordinary objects used as maps *)

(** An array index is a canonical numeric string below [2^32 - 1]: such
    property names are enumerated first, in ascending numeric order. *)
Definition array_index (name : string) : option N :=
  match NilZero.uint_of_string name with
  | Some d =>
      let n := N.of_uint d in
      if decide (pretty n = name ∧ (n < 2 ^ 32 - 1)%N) then Some n else None
  | None => None
  end.

(** The own properties of an object created by [{}], in creation order. *)
Definition object (V : Type) : Type := list (string * V).

(** The members such an object inherits from [Object.prototype]: functions,
    and the accessor [__proto__], which gives the prototype itself.  All of
    them are truthy. *)
Definition Object_prototype : list string :=
  ["constructor"; "__defineGetter__"; "__defineSetter__"; "hasOwnProperty";
   "__lookupGetter__"; "__lookupSetter__"; "isPrototypeOf";
   "propertyIsEnumerable"; "toString"; "valueOf"; "__proto__";
   "toLocaleString"].

(** Whether [o[name]] finds a member of [Object.prototype] when [o] has no
    own property of that name. *)
Definition inherited (name : string) : bool :=
  bool_decide (name ∈ Object_prototype).

(** The own property [name] of [o]: [None] when there is none, and
    [o[name]] then looks in the prototype. *)
Fixpoint get {V} (o : object V) (name : string) : option V :=
  match o with
  | [] => None
  | (n, v) :: o' => if decide (n = name) then Some v else get o' name
  end.

(** [o[name] = v]: an existing property keeps its place, a new one is
    created last. *)
Fixpoint set {V} (o : object V) (name : string) (v : V) : object V :=
  match o with
  | [] => [(name, v)]
  | (n, x) :: o' =>
      if decide (n = name) then (n, v) :: o' else (n, x) :: set o' name v
  end.

(** [Object.keys(o)]: array indices ascending, then the other names in
    creation order. *)
Definition own_keys (names : list string) : list string :=
  (pretty <$> merge_sort N.le (omap array_index names))
  ++ filter (λ name, array_index name = None) names.

Definition Object_keys {V} (o : object V) : list string := own_keys o.*1.

(** [ids.join(',')] *)
Fixpoint join (sep : string) (l : list string) : string :=
  match l with
  | [] => ""
  | [x] => x
  | x :: l' => x +:+ sep +:+ join sep l'
  end.

(** ** The loader *)

Inductive error :=
  | TypeError (msg : string)
  | Error (msg : string).

#[global] Instance error_eq_dec : EqDecision error.
Proof. solve_decision. Defined.

(** A row returned by the batch function: its [id] and its other columns. *)
Record item := Item { id : value; columns : list (string * value) }.

(** The thenable a batch function returns, taken to be a promise for an
    array of rows: it settles once, and every [then] sees that settlement. *)
Inductive fetch :=
  | Fulfils (items : list item)
  | Rejects (reason : error).

(** A batch function is called with the ids; it throws or returns a
    thenable. *)
Definition BatchFn : Type := list string → error + fetch.

(** A scheduling function arms one timer and returns a promise that the
    timer's callback resolves, as the prototype's does and as the one of the
    article's [postLoader] does; it is modelled by the delay it passes to
    [setTimeout]. *)
Record SchedulingFn := { delay : nat }.

Record Options := { options_schedulingFn : option SchedulingFn }.

(** An entry of [this.promises]: the [null] placeholder, or a promise made by
    [this.activeQuery.then(...)], named by its allocation index. *)
Inductive entry :=
  | ENull
  | EPromise (p : nat).

#[global] Instance entry_eq_dec : EqDecision entry.
Proof. solve_decision. Defined.

(** The instance.  [own_batchFn] and [own_schedulingFn] are the own
    properties that shadow the prototype's methods: [None] when the instance
    has no such property, [Some None] when it has one whose value is
    [undefined]. *)
Record DataLoader := {
  own_batchFn : option (option BatchFn);
  own_schedulingFn : option SchedulingFn;
  promises : object entry;
  activeQuery : option nat;
}.

(** [constructor(batchFn, options = {})] *)
Definition constructor (batchFn : option BatchFn) (options : option Options)
  : DataLoader :=
  let options := default {| options_schedulingFn := None |} options in
  {| own_batchFn := Some batchFn;
     own_schedulingFn := options_schedulingFn options;
     promises := [];
     activeQuery := None |}.

(** The prototype's [batchFn() { throw new Error('Not implemented') }] *)
Definition batchFn : BatchFn := λ _, inl (Error "Not implemented").

(** The prototype's [schedulingFn()]: [setTimeout] with no delay. *)
Definition schedulingFn : SchedulingFn := {| delay := 0 |}.

(** [this.batchFn]: the own property when there is one, the prototype's
    method otherwise.  [None] is [undefined]. *)
Definition this_batchFn (this : DataLoader) : option BatchFn :=
  match own_batchFn this with
  | Some f => f
  | None => Some batchFn
  end.

(** [this.schedulingFn] *)
Definition this_schedulingFn (this : DataLoader) : SchedulingFn :=
  default schedulingFn (own_schedulingFn this).

(** ** The world a loader runs in *)

(** A call of [load] suspended at [await this.schedulingFn()]: the key it was
    called with and the index of the call. *)
Record Call := { call_key : value; call_index : nat }.

(** An armed timer.  The promise a scheduling function returns is awaited by
    the call that asked for it and by nothing else, so the timer carries that
    call: firing the timer resolves the promise and the call goes on. *)
Record Timer := { timer_delay : nat; timer_call : Call }.

(** How the body of an async function ends: by [return p], where [p] is a
    promise made by [then]; by the return of a member of [Object.prototype]
    found under the key; or by a throw.  The promise [load] handed to its
    caller settles accordingly. *)
Inductive completion :=
  | Return (p : nat)
  | ReturnMember (name : string)
  | Throw (e : error).

Record World := {
  this : DataLoader;
  (** the thenables returned by the batch function, in order of creation *)
  queries : list fetch;
  (** the promises made by [this.activeQuery.then(...)], in order of
      creation: the query waited on and the key selected *)
  thens : list (nat * value);
  (** timers armed and not yet fired; with one scheduling function per loader
      they expire in the order they were armed *)
  timers : list Timer;
  (** every call of [load] so far, with its completion once it has one *)
  calls : list (value * option completion);
  (** lines written by [console.log] *)
  console : list string;
  (** the argument of every invocation of the batch function *)
  batch_calls : list (list string);
}.

Definition new_world (loader : DataLoader) : World :=
  {| this := loader; queries := []; thens := []; timers := []; calls := [];
     console := []; batch_calls := [] |}.

Definition with_promises (o : object entry) (w : World) : World :=
  {| this := {| own_batchFn := own_batchFn (this w);
                own_schedulingFn := own_schedulingFn (this w);
                promises := o;
                activeQuery := activeQuery (this w) |};
     queries := queries w; thens := thens w; timers := timers w;
     calls := calls w; console := console w; batch_calls := batch_calls w |}.

Definition with_activeQuery (q : option nat) (w : World) : World :=
  {| this := {| own_batchFn := own_batchFn (this w);
                own_schedulingFn := own_schedulingFn (this w);
                promises := promises (this w);
                activeQuery := q |};
     queries := queries w; thens := thens w; timers := timers w;
     calls := calls w; console := console w; batch_calls := batch_calls w |}.

Definition with_queries (l : list fetch) (w : World) : World :=
  {| this := this w; queries := l; thens := thens w; timers := timers w;
     calls := calls w; console := console w; batch_calls := batch_calls w |}.

Definition with_thens (l : list (nat * value)) (w : World) : World :=
  {| this := this w; queries := queries w; thens := l; timers := timers w;
     calls := calls w; console := console w; batch_calls := batch_calls w |}.

Definition with_timers (l : list Timer) (w : World) : World :=
  {| this := this w; queries := queries w; thens := thens w; timers := l;
     calls := calls w; console := console w; batch_calls := batch_calls w |}.

Definition with_calls (l : list (value * option completion)) (w : World)
  : World :=
  {| this := this w; queries := queries w; thens := thens w;
     timers := timers w; calls := l; console := console w;
     batch_calls := batch_calls w |}.

Definition with_console (l : list string) (w : World) : World :=
  {| this := this w; queries := queries w; thens := thens w;
     timers := timers w; calls := calls w; console := l;
     batch_calls := batch_calls w |}.

Definition with_batch_calls (l : list (list string)) (w : World) : World :=
  {| this := this w; queries := queries w; thens := thens w;
     timers := timers w; calls := calls w; console := console w;
     batch_calls := l |}.

(** ** [load] *)

(** What the part of [load] before the [await] does. *)
Inductive entered :=
  | Returned (p : nat)
  | ReturnedMember (name : string)
  | Awaiting.

(** [load], from its first line to [await this.schedulingFn()]:
<<
    if (this.promises[key]) {
      return this.promises[key]
    } else {
      this.promises[key] = null
    }
>>
    [this.promises] is a plain object: where it has no own property of the
    key's name, the read finds the member of [Object.prototype] of that
    name, if there is one, and that member is truthy.  Of the own entries
    only a promise is truthy: the [null] placeholder takes the [else]
    branch, as a name that is found nowhere does. *)
Definition load_enter (key : value) (w : World) : entered * World :=
  let name := ToPropertyKey key in
  match get (promises (this w)) name with
  | Some (EPromise p) => (Returned p, w)
  | Some ENull =>
      (Awaiting, with_promises (set (promises (this w)) name ENull) w)
  | None =>
      if inherited name then (ReturnedMember name, w)
      else (Awaiting, with_promises (set (promises (this w)) name ENull) w)
  end.

(** The block
<<
    if (!this.activeQuery) {
      const ids = Object.keys(this.promises)
      console.log(`SELECT * from users WHERE id in (${ids.join(',')})`)
      this.activeQuery = this.batchFn(ids)
    }
>>
    Calling [undefined] is a [TypeError]; a throw of the batch function
    leaves [this.activeQuery] as it was. *)
Definition dispatch (w : World) : option error * World :=
  match activeQuery (this w) with
  | Some _ => (None, w)
  | None =>
      let ids := Object_keys (promises (this w)) in
      let w :=
        with_console
          (console w
           ++ ["SELECT * from users WHERE id in (" +:+ join "," ids +:+ ")"]) w in
      match this_batchFn (this w) with
      | None => (Some (TypeError "this.batchFn is not a function"), w)
      | Some f =>
          let w := with_batch_calls (batch_calls w ++ [ids]) w in
          match f ids with
          | inl e => (Some e, w)
          | inr q =>
              (None,
               with_activeQuery (Some (length (queries w)))
                 (with_queries (queries w ++ [q]) w))
          end
      end
  end.

(** [load], after the [await]: the block above, then
<<
    this.promises[key] = this.activeQuery.then((items) => {
      return items.find((item) => item.id === Number(key))
    })
    return this.promises[key]
>>
    The entry read back by the [return] is the promise just stored
    ([get_set_eq] below). *)
Definition load_resume (key : value) (w : World) : completion * World :=
  match dispatch w with
  | (Some e, w) => (Throw e, w)
  | (None, w) =>
      match activeQuery (this w) with
      | None =>
          (Throw (TypeError "Cannot read properties of null (reading 'then')"),
           w)
      | Some q =>
          let p := length (thens w) in
          let w := with_thens (thens w ++ [(q, key)]) w in
          let w :=
            with_promises
              (set (promises (this w)) (ToPropertyKey key) (EPromise p)) w in
          (Return p, w)
      end
  end.

(** A call [load(key)] made by the environment: the body runs up to its
    return or to the [await], where [this.schedulingFn()] arms a timer. *)
Definition load (key : value) (w : World) : World :=
  let c := length (calls w) in
  match load_enter key w with
  | (Returned p, w) => with_calls (calls w ++ [(key, Some (Return p))]) w
  | (ReturnedMember name, w) =>
      with_calls (calls w ++ [(key, Some (ReturnMember name))]) w
  | (Awaiting, w) =>
      let t := {| timer_delay := delay (this_schedulingFn (this w));
                  timer_call := {| call_key := key; call_index := c |} |} in
      with_timers (timers w ++ [t])
        (with_calls (calls w ++ [(key, None)]) w)
  end.

(** The oldest timer fires: its promise is resolved and the call that awaits
    it runs to its end. *)
Definition fire (w : World) : World :=
  match timers w with
  | [] => w
  | t :: ts =>
      let w := with_timers ts w in
      let '(r, w) := load_resume (call_key (timer_call t)) w in
      with_calls
        (alter (λ c, (c.1, Some r)) (call_index (timer_call t)) (calls w)) w
  end.

(** What the environment does: it calls [load], or it lets a timer fire. *)
Inductive event :=
  | CallLoad (key : value)
  | Fire.

Definition step (w : World) (e : event) : World :=
  match e with
  | CallLoad key => load key w
  | Fire => fire w
  end.

Definition run (es : list event) (w : World) : World := foldl step w es.

(** A scheduling window: the calls, then one firing per call. *)
Definition window (keys : list value) : list event :=
  (CallLoad <$> keys) ++ replicate (length keys) Fire.

(** ** What a call resolves to *)

Inductive settled :=
  | Pending
  | Fulfilled (v : option item)
  | FulfilledMember (name : string)
  | Rejected (e : error).

Section Outcome.

(** The built-in conversion of strings to numbers. *)
Variable StringToNumber : string → number.

(** [items.find((item) => item.id === Number(key))]: [None] is
    [undefined]. *)
Definition select (key : value) (items : list item) : option item :=
  List.find (λ it, strict_equals (id it) (Number StringToNumber key)) items.

(** How [q.then((items) => items.find(...))] settles, by how the thenable
    [q] does.  There is a fulfilment handler only: a rejection passes
    through with its reason. *)
Definition settle (q : fetch) (key : value) : settled :=
  match q with
  | Fulfils items => Fulfilled (select key items)
  | Rejects e => Rejected e
  end.

(** A promise made by [this.activeQuery.then(...)]. *)
Definition then_outcome (w : World) (p : nat) : settled :=
  match thens w !! p with
  | Some (q, key) =>
      match queries w !! q with
      | Some r => settle r key
      | None => Pending
      end
  | None => Pending
  end.

(** The promise returned by the [c]-th call of [load]. *)
Definition result (w : World) (c : nat) : settled :=
  match calls w !! c with
  | Some (_, Some (Return p)) => then_outcome w p
  | Some (_, Some (ReturnMember name)) => FulfilledMember name
  | Some (_, Some (Throw e)) => Rejected e
  | Some (_, None) | None => Pending
  end.

End Outcome.

(** ** The MDX component map *)

(** The value of a prop: a string attribute, or rendered content that the
    components pass along untouched. *)
Inductive prop :=
  | PStr (s : string)
  | PNode (n : nat).

#[global] Instance prop_eq_dec : EqDecision prop.
Proof. solve_decision. Defined.

(** A rendered intrinsic element: its tag, its [key] and [ref], which React
    keeps on the element and not among the props, its props, and the
    children written between its tags. *)
#[local] Set Warnings "-register-all".
Inductive element :=
  | Element (tag : string) (key ref : option prop)
      (props : gmap string prop) (children : list element).

Definition tag (e : element) : string :=
  match e with Element t _ _ _ _ => t end.



Definition element_props (e : element) : gmap string prop :=
  match e with Element _ _ _ ps _ => ps end.

(** [<tag a1="v1" ... {...props}>children</tag>], as React builds it: the
    spread comes last, so a prop of the same name replaces the attribute
    written in the source; [key] and [ref] are taken out of the props; and
    children written between the tags take the place of a [children]
    prop. *)
Definition jsx (tag : string) (attributes : list (string * string))
    (props : gmap string prop) (children : list element) : element :=
  let config :=
    props
    ∪ list_to_map ((λ a : string * string, (a.1, PStr a.2)) <$> attributes) in
  let own := delete "key" (delete "ref" config) in
  Element tag (config !! "key") (config !! "ref")
    (match children with [] => own | _ :: _ => delete "children" own end)
    children.

(** The entries of the default export that render an intrinsic element, in
    source order.  [DefaultLayout], [TestTextInput], [TestTextInputAsync] and
    [pre] render imported components and are left out. *)
Definition components : list (string * (gmap string prop → element)) :=
  [ ("h1", λ props,
       jsx "h1"
         [("className",
           "mt-10 mb-4 leading-tight text-gray-800 text-28 font-300")]
         props []);
    ("h2", λ props,
       jsx "h2" [("className", "mt-10 mb-4 text-gray-500 text-24 font-300")]
         props []);
    ("h3", λ props,
       jsx "h3" [("className", "mt-10 mb-4 text-gray-500 font-500")] props []);
    ("h4", λ props, jsx "s" [] props []);
    ("h5", λ props, jsx "s" [] props []);
    ("h6", λ props, jsx "s" [] props []);
    ("a", λ props, jsx "a" [("className", "text-blue-700 underline")] props []);
    ("p", λ props, jsx "p" [("className", "mb-5 ")] props []);
    ("li", λ props,
       jsx "li" [("className", "text-gray-600 list-disc")] props []);
    ("ul", λ props, jsx "ul" [("className", "mb-4 ml-5")] props []);
    ("ins", λ props,
       jsx "ins" [("className", "block px-4 -mx-4 bg-green-800")] props []);
    ("del", λ props,
       jsx "ins" [("className", "block px-4 -mx-4 bg-blue-800")] props []);
    ("link-icon", λ props,
       jsx "svg"
         [("className", "w-6 h-6"); ("fill", "none");
          ("stroke", "currentColor"); ("viewBox", "0 0 24 24");
          ("xmlns", "http://www.w3.org/2000/svg")]
         props
         [jsx "path"
            [("stroke-linecap", "round"); ("stroke-linejoin", "round");
             ("stroke-width", "2");
             ("d", "M13.828 10.172a4 4 0 00-5.656 0l-4 4a4 4 0 105.656 5.656l1.102-1.101m-.758-4.899a4 4 0 005.656 0l4-4a4 4 0 00-5.656-5.656l-1.1 1.1")]
            ∅ []]);
    ("code", λ props,
       jsx "code" [("className", "bg-blue-600 text-16")] props []);
    ("blockquote", λ props,
       jsx "blockquote" [("className", "italic")] props []) ].

(** The component registered under a markup element name. *)
Definition component (name : string)
  : option (gmap string prop → element) :=
  get components name.

(** ** Reading the state of a loader *)

(** What a call of [load] finds in the cache under its key: the promise it
    returns at once, if there is one. *)
Definition cached (o : object entry) (key : value) : option nat :=
  match get o (ToPropertyKey key) with
  | Some (EPromise p) => Some p
  | Some ENull | None => None
  end.

(** What a call of [load] finds in the prototype, the cache having no own
    property of the key's name: the member it returns at once, if there is
    one. *)
Definition member (o : object entry) (key : value) : option string :=
  match get o (ToPropertyKey key) with
  | Some _ => None
  | None =>
      if inherited (ToPropertyKey key) then Some (ToPropertyKey key) else None
  end.

(** A key whose name is not a member of [Object.prototype]. *)
Definition ordinary (key : value) : Prop :=
  inherited (ToPropertyKey key) = false.

(** The keys the properties that follow a key through the cache and the
    batch are stated for: their name is not a member of [Object.prototype],
    and it is the one [ToPropertyKey] gives. *)
Definition plain (key : value) : Prop := ordinary key ∧ safe key = true.

(** An event whose key, if it has one, has the name [ToPropertyKey] gives. *)
Definition safe_event (e : event) : Prop :=
  match e with
  | CallLoad key => safe key = true
  | Fire => True
  end.

(** The timers armed by the calls [load(k)] for [k] in [keys], the first of
    which has index [c], in a loader whose cache is [o]: one per call that
    finds no promise under its key. *)
Fixpoint armed (d : nat) (o : object entry) (c : nat) (keys : list value)
  : list Timer :=
  match keys with
  | [] => []
  | k :: keys' =>
      match cached o k with
      | Some _ => armed d o (S c) keys'
      | None =>
          {| timer_delay := d;
             timer_call := {| call_key := k; call_index := c |} |}
          :: armed d o (S c) keys'
      end
  end.

(** ** Worlds a loader can reach *)

(** What holds of every world reached from a new loader whose batch function
    is [f]: there is at most one query, and it is the one every promise made
    by [then] waits on; the promises of the cache and the promises returned
    to the calls are among those, under the right name; the pending timers
    belong to distinct calls that have not returned and whose name is
    registered. *)
Record wf (f : BatchFn) (w : World) : Prop := {
  wf_batchFn : this_batchFn (this w) = Some f;
  wf_query :
    match activeQuery (this w) with
    | None => queries w = [] ∧ thens w = []
    | Some q => q = 0 ∧ length (queries w) = 1
    end;
  wf_thens : ∀ p q k, thens w !! p = Some (q, k) → q = 0;
  wf_entries :
    ∀ name p, get (promises (this w)) name = Some (EPromise p) →
      ∃ k, thens w !! p = Some (0, k) ∧ ToPropertyKey k = name;
  wf_calls :
    ∀ c k p, calls w !! c = Some (k, Some (Return p)) →
      ∃ k', thens w !! p = Some (0, k') ∧ ToPropertyKey k' = ToPropertyKey k;
  wf_timers_NoDup : NoDup (call_index ∘ timer_call <$> timers w);
  wf_timers :
    ∀ t, t ∈ timers w →
      calls w !! call_index (timer_call t)
      = Some (call_key (timer_call t), None)
      ∧ ToPropertyKey (call_key (timer_call t)) ∈ (promises (this w)).*1;
}.

(** A timer can fire without a throw: the active query is there, or the
    batch function returns one for the names registered so far. *)
Definition dispatchable (f : BatchFn) (w : World) : Prop :=
  match activeQuery (this w) with
  | Some _ => True
  | None => ∃ q, f (Object_keys (promises (this w))) = inr q
  end.

(** ** Order of first request *)

(** The names of [l] that are not in [seen], each once, in the order in which
    they first occur. *)
Fixpoint distinct_from (seen l : list string) : list string :=
  match l with
  | [] => []
  | x :: l' =>
      if decide (x ∈ seen) then distinct_from seen l'
      else x :: distinct_from (seen ++ [x]) l'
  end.

(** The distinct names of [l] in order of first request. *)
Definition first_requests (l : list string) : list string :=
  distinct_from [] l.

(** ** Batch functions of the examples *)

(** The rows of the article's users table that the examples use. *)
Definition users_table : list item :=
  (λ z : Z, Item (VNum (Int z)) [("name", VStr ("user " +:+ pretty z))])
  <$> [1; 2; 4; 5; 6; 10; 18]%Z.

(** [keys => sql.select('*').from('users').whereIn('id', keys)]: the rows
    whose id is among the keys. *)
Definition users : BatchFn :=
  λ ids,
    inr (Fulfils (filter (λ it, ToPropertyKey (id it) ∈ ids) users_table)).

(** A batch function that answers with the whole table, whatever the keys:
    its rows carry the [id] they are matched by. *)
Definition all_users : BatchFn := λ _, inr (Fulfils users_table).



(** A batch function that throws before it returns anything. *)
Definition throwing : BatchFn := λ _, inl (Error "connection refused").


(** ** The article's first cache *)

(** The object of the listing "Caching database requests":
<<
    const cache = { promises: {}, load(key) { ... } }
>>
    A promise is the query [sql.select('*').from('users').where('id', key)
    .first()] made for it, named by its rank among the queries made so
    far. *)
Record Cache := {
  cache_promises : object nat;
  (** the key of every query made, in order *)
  cache_queries : list value;
  (** the arguments of every [console.log] *)
  cache_console : list (string * value);
}.

Definition new_cache : Cache :=
  {| cache_promises := []; cache_queries := []; cache_console := [] |}.

(** What [cache.load] returns: a query, or the member of [Object.prototype]
    found under the key's name. *)
Inductive loaded :=
  | LoadedQuery (p : nat)
  | LoadedMember (name : string).

(** [cache.load(key)] of that listing:
<<
    if (this.promises[key]) {
      return this.promises[key]
    }
    this.promises[key] = sql.select('*').from('users').where('id', key).first()
    console.log('SELECT * from users WHERE id =', key)
    return this.promises[key]
>>
    A query object is truthy, so an entry is returned as soon as there is
    one; and so is a member of [Object.prototype], which the read finds when
    the cache has no own property of the key's name. *)
Definition cache_load (key : value) (c : Cache) : loaded * Cache :=
  let name := ToPropertyKey key in
  match get (cache_promises c) name with
  | Some p => (LoadedQuery p, c)
  | None =>
      if inherited name then (LoadedMember name, c)
      else
        let p := length (cache_queries c) in
        (LoadedQuery p,
         {| cache_promises := set (cache_promises c) name p;
            cache_queries := cache_queries c ++ [key];
            cache_console :=
              cache_console c ++ [("SELECT * from users WHERE id =", key)] |})
  end.

(** The calls [cache.load(k)] for the keys of a list, in order, as the
    resolver [author(post) { return cache.load(post.author_id) }] makes them
    for the posts of a query: the promises returned, and the cache left. *)
Fixpoint cache_loads (keys : list value) (c : Cache)
  : list loaded * Cache :=
  match keys with
  | [] => ([], c)
  | k :: keys' =>
      let '(p, c) := cache_load k c in
      let '(ps, c) := cache_loads keys' c in
      (p :: ps, c)
  end.

(** The keys of [keys] whose property name is neither in [seen] nor the name
    of an earlier key of the list: the first key of each new name. *)
Fixpoint first_keys (seen : list string) (keys : list value) : list value :=
  match keys with
  | [] => []
  | k :: keys' =>
      if decide (ToPropertyKey k ∈ seen) then first_keys seen keys'
      else k :: first_keys (seen ++ [ToPropertyKey k]) keys'
  end.

(** What the first cache keeps: a promise is kept under the name of the key
    its query was made for. *)
Definition cache_wf (c : Cache) : Prop :=
  (∀ name p, get (cache_promises c) name = Some p →
     ∃ k, cache_queries c !! p = Some k ∧ ToPropertyKey k = name)
  ∧ (∀ p k, cache_queries c !! p = Some k →
       get (cache_promises c) (ToPropertyKey k) = Some p).

(** ** The article's batching cache *)









(** ** Invariants of every loader *)

(** The four ways a firing can go. *)
Inductive fired (w : World) (t : Timer) : World → Prop :=
  | fired_joins q :
      activeQuery (this w) = Some q → fired w t (fire w)
  | fired_dispatches f q :
      activeQuery (this w) = None → this_batchFn (this w) = Some f →
      f (Object_keys (promises (this w))) = inr q → fired w t (fire w)
  | fired_throws f e :
      activeQuery (this w) = None → this_batchFn (this w) = Some f →
      f (Object_keys (promises (this w))) = inl e → fired w t (fire w)
  | fired_undefined :
      activeQuery (this w) = None → this_batchFn (this w) = None →
      fired w t (fire w).


(** Every call that has not completed waits on a pending timer. *)
Definition waiting_calls_have_timers (w : World) : Prop :=
  ∀ c k, calls w !! c = Some (k, None) →
    c ∈ (call_index ∘ timer_call <$> timers w).

(** There is at most one query, the active one, and nothing is stored or
    returned that does not wait on it. *)
Definition single_query (w : World) : Prop :=
  match activeQuery (this w) with
  | None => queries w = [] ∧ thens w = []
  | Some q =>
      q = 0 ∧ length (queries w) = 1
      ∧ ∀ p q' k, thens w !! p = Some (q', k) → q' = 0
  end.

(** No member of [Object.prototype] is hidden by the cache: the names it
    holds, and the names of the keys that wait for a timer, are not
    inherited. *)
Definition hides_no_member (w : World) : Prop :=
  (∀ name e, get (promises (this w)) name = Some e → inherited name = false)
  ∧ (∀ t, t ∈ timers w →
       inherited (ToPropertyKey (call_key (timer_call t))) = false).

(** The state of a loader that has no batch function: it never gets
    anywhere.  Its cache holds placeholders only, under names that are not
    members of [Object.prototype]; a call whose key names such a member has
    returned it, and every other call waits or has thrown. *)
Definition never_dispatched (w : World) : Prop :=
  this_batchFn (this w) = None
  ∧ activeQuery (this w) = None
  ∧ queries w = [] ∧ thens w = [] ∧ batch_calls w = []
  ∧ (∀ name e, get (promises (this w)) name = Some e →
       e = ENull ∧ inherited name = false)
  ∧ (∀ t, t ∈ timers w →
       ∃ k o, calls w !! call_index (timer_call t) = Some (k, o)
              ∧ inherited (ToPropertyKey k) = false)
  ∧ (∀ c k o, calls w !! c = Some (k, o) →
       if inherited (ToPropertyKey k)
       then o = Some (ReturnMember (ToPropertyKey k))
       else o = None
            ∨ o = Some (Throw (TypeError "this.batchFn is not a function"))).


(** * Properties *)

(** ** Ordinary objects *)

Section Objects.
Context {V : Type}.
Implicit Types (o : object V) (name : string) (v : V).

Lemma get_set_eq o name v : get (set o name v) name = Some v.
Proof.
  induction o as [|[n x] o IH]; cbn.
  - by rewrite decide_True.
  - destruct (decide (n = name)) as [->|Hn]; cbn.
    + by rewrite decide_True.
    + by rewrite decide_False.
Qed.

Lemma get_set_ne o name name' v :
  name ≠ name' → get (set o name v) name' = get o name'.
Proof.
  intros Hne. induction o as [|[n x] o IH]; cbn.
  - by rewrite decide_False.
  - destruct (decide (n = name)) as [->|Hn]; cbn.
    + by rewrite !decide_False.
    + by rewrite IH.
Qed.

Lemma get_None o name : get o name = None ↔ name ∉ o.*1.
Proof.
  induction o as [|[n x] o IH]; cbn.
  - split; [intros _; apply not_elem_of_nil | done].
  - rewrite not_elem_of_cons. destruct (decide (n = name)) as [->|Hn].
    + split; [done | by intros [? _]].
    + rewrite IH. split; [auto | by intros [_ ?]].
Qed.

Lemma get_is_Some o name : is_Some (get o name) ↔ name ∈ o.*1.
Proof.
  rewrite <-not_eq_None_Some, get_None.
  split; [apply dec_stable | auto].
Qed.

(** Assigning to a property never reorders the names: a known name keeps
    its place, an unknown one comes last. *)
Lemma set_names o name v :
  (set o name v).*1 = if decide (name ∈ o.*1) then o.*1 else o.*1 ++ [name].
Proof.
  induction o as [|[n x] o IH]; cbn.
  - rewrite decide_False; [done | apply not_elem_of_nil].
  - destruct (decide (n = name)) as [->|Hn]; cbn.
    + rewrite decide_True; [done | apply list_elem_of_here].
    + rewrite IH. destruct (decide (name ∈ o.*1)) as [Hin|Hin].
      * rewrite decide_True; [done | by apply list_elem_of_further].
      * rewrite decide_False; [done |].
        rewrite not_elem_of_cons. auto.
Qed.

Lemma set_names_known o name v : name ∈ o.*1 → (set o name v).*1 = o.*1.
Proof. intros Hin. by rewrite set_names, decide_True. Qed.

Lemma set_names_keeps o name name' v :
  name' ∈ o.*1 → name' ∈ (set o name v).*1.
Proof.
  intros Hin. rewrite set_names. case_decide; [done|].
  rewrite elem_of_app. auto.
Qed.

End Objects.

Lemma array_index_pretty name n : array_index name = Some n → pretty n = name.
Proof.
  unfold array_index. destruct (NilZero.uint_of_string name); [|done].
  case_decide as Hn; [|done]. intros [= <-]. apply Hn.
Qed.

(** *** [Object.keys] *)

Lemma omap_array_index_pretty (names : list string) :
  pretty <$> omap array_index names
  = filter (λ name, is_Some (array_index name)) names.
Proof.
  induction names as [|x names IH]; [done|].
  rewrite filter_cons. cbn.
  destruct (array_index x) as [n|] eqn:Hx; cbn.
  - rewrite decide_True by eauto. rewrite IH.
    by rewrite (array_index_pretty _ _ Hx).
  - rewrite decide_False by (by intros [? ?]). done.
Qed.

(** [Object.keys] enumerates every property name exactly once. *)
Lemma own_keys_Permutation (names : list string) : own_keys names ≡ₚ names.
Proof.
  unfold own_keys. rewrite merge_sort_Permutation, omap_array_index_pretty.
  rewrite <-(filter_app_complement (λ name, is_Some (array_index name)) names)
    at 3.
  f_equiv. apply reflexive_eq, list_filter_iff.
  intros x. by rewrite eq_None_not_Some.
Qed.

Lemma own_keys_indices (names : list string) :
  omap array_index (own_keys names) = merge_sort N.le (omap array_index names).
Proof.
  unfold own_keys. rewrite omap_app.
  assert (∀ l, Forall (λ n, array_index (pretty n) = Some n) l →
               omap array_index (pretty <$> l) = l) as Hidx.
  { induction 1 as [|n l Hn _ IH]; [done|]. cbn. by rewrite Hn, IH. }
  assert (∀ l : list string,
            omap array_index (filter (λ name, array_index name = None) l) = [])
    as Hrest.
  { induction l as [|x l IH]; [done|]. rewrite filter_cons.
    case_decide as Hx; [|done]. cbn. by rewrite Hx. }
  rewrite Hrest, app_nil_r. apply Hidx.
  rewrite Forall_forall. intros n Hn.
  rewrite merge_sort_Permutation in Hn.
  apply list_elem_of_omap in Hn as (x & _ & Hx).
  by rewrite (array_index_pretty _ _ Hx).
Qed.

(** The array indices come out in ascending numeric order. *)
Lemma own_keys_ascending (names : list string) :
  StronglySorted N.le (omap array_index (own_keys names)).
Proof.
  rewrite own_keys_indices.
  apply (StronglySorted_merge_sort N.le); apply _.
Qed.

Lemma own_keys_index_part (names : list string) :
  Forall (λ name, is_Some (array_index name))
    (pretty <$> merge_sort N.le (omap array_index names)).
Proof.
  rewrite Forall_forall. intros x Hx.
  apply list_elem_of_fmap in Hx as (n & -> & Hn).
  rewrite merge_sort_Permutation in Hn.
  apply list_elem_of_omap in Hn as (y & _ & Hy).
  rewrite (array_index_pretty _ _ Hy). eauto.
Qed.

(** The other names come out in creation order. *)
Lemma own_keys_others (names : list string) :
  filter (λ name, array_index name = None) (own_keys names)
  = filter (λ name, array_index name = None) names.
Proof.
  unfold own_keys. rewrite filter_app.
  assert (∀ l : list string,
            Forall (λ name, is_Some (array_index name)) l →
            filter (λ name, array_index name = None) l = []) as ->.
  { induction 1 as [|x l Hx _ IH]; [done|].
    rewrite filter_cons, decide_False; [done|].
    intros Hn. rewrite Hn in Hx. by destruct Hx. }
  - rewrite app_nil_l, list_filter_filter. apply list_filter_iff. tauto.
  - apply own_keys_index_part.
Qed.

(** Every array index comes before every other name. *)
Lemma own_keys_indices_first (names : list string) i j a b :
  own_keys names !! i = Some a → own_keys names !! j = Some b →
  is_Some (array_index a) → array_index b = None → i < j.
Proof.
  unfold own_keys. pose proof (own_keys_index_part names) as Hidx.
  set (idx := pretty <$> _) in *. set (rest := filter _ names).
  intros Ha Hb Hia Hib.
  assert (j ≥ length idx) as Hj.
  { destruct (decide (j < length idx)) as [Hlt|]; [|lia].
    rewrite lookup_app_l in Hb by done.
    apply list_elem_of_lookup_2 in Hb.
    rewrite Forall_forall in Hidx. apply Hidx in Hb.
    rewrite Hib in Hb. by destruct Hb. }
  assert (i < length idx); [|lia].
  destruct (decide (i < length idx)) as [|Hge]; [done|].
  rewrite lookup_app_r in Ha by lia.
  apply list_elem_of_lookup_2, list_elem_of_filter in Ha as [Ha _].
  rewrite Ha in Hia. by destruct Hia.
Qed.

(** *** Order of first request *)

Lemma distinct_from_elem_of seen l x :
  x ∈ distinct_from seen l ↔ x ∈ l ∧ x ∉ seen.
Proof.
  revert seen. induction l as [|y l IH]; intros seen; cbn.
  - rewrite elem_of_nil. tauto.
  - case_decide as Hy.
    + rewrite IH, elem_of_cons. split; [tauto|].
      intros [[->|?] ?]; tauto.
    + rewrite !elem_of_cons, IH, not_elem_of_app, list_elem_of_singleton.
      split; [intros [->|(? & ? & ?)]; auto|].
      intros [[->|?] ?]; [auto|].
      destruct (decide (x = y)); auto.
Qed.

Lemma distinct_from_NoDup seen l : NoDup (distinct_from seen l).
Proof.
  revert seen. induction l as [|y l IH]; intros seen; cbn.
  - constructor.
  - case_decide; [apply IH|]. constructor; [|apply IH].
    rewrite distinct_from_elem_of, not_elem_of_app, list_elem_of_singleton.
    tauto.
Qed.

(** The first requests are the requested names, each once. *)
Lemma first_requests_elem_of l x : x ∈ first_requests l ↔ x ∈ l.
Proof.
  unfold first_requests. rewrite distinct_from_elem_of, elem_of_nil. tauto.
Qed.

Lemma first_requests_NoDup l : NoDup (first_requests l).
Proof. apply distinct_from_NoDup. Qed.

(** ** One step of the loader *)

Lemma cached_Some o key p :
  cached o key = Some p ↔ get o (ToPropertyKey key) = Some (EPromise p).
Proof.
  unfold cached. destruct (get _ _) as [[|p']|]; split; congruence.
Qed.

Lemma cached_name o key key' :
  ToPropertyKey key = ToPropertyKey key' → cached o key = cached o key'.
Proof. unfold cached. by intros ->. Qed.

Lemma armed_length d o c keys : length (armed d o c keys) ≤ length keys.
Proof.
  revert c. induction keys as [|k keys IH]; intros c; cbn; [done|].
  specialize (IH (S c)). destruct (cached o k); cbn; lia.
Qed.

Lemma armed_lookup d o c keys i k :
  keys !! i = Some k → cached o k = None →
  ∃ j, armed d o c keys !! j
       = Some {| timer_delay := d;
                 timer_call := {| call_key := k; call_index := c + i |} |}.
Proof.
  revert c i. induction keys as [|k' keys IH]; intros c i Hi Hk; [done|].
  destruct i as [|i]; cbn in *.
  - injection Hi as ->. rewrite Hk, Nat.add_0_r. by exists 0.
  - destruct (IH (S c) i Hi Hk) as [j Hj].
    replace (c + S i) with (S c + i) by lia.
    destruct (cached o k'); [by exists j | by exists (S j)].
Qed.

Lemma armed_elem_of d o c keys t :
  t ∈ armed d o c keys →
  ∃ i, call_index (timer_call t) = c + i
       ∧ keys !! i = Some (call_key (timer_call t))
       ∧ cached o (call_key (timer_call t)) = None.
Proof.
  revert c. induction keys as [|k keys IH]; intros c; cbn.
  { intros Ht. by apply elem_of_nil in Ht. }
  destruct (cached o k) eqn:Hk.
  - intros (i & Hi & Hl & Hc)%IH. exists (S i). split; [lia | done].
  - intros [->|(i & Hi & Hl & Hc)%IH]%elem_of_cons.
    + exists 0. cbn. split; [lia | done].
    + exists (S i). split; [lia | done].
Qed.

(** In a cache that holds no promise every call arms its timer. *)
Lemma armed_all d o c keys :
  (∀ k, cached o k = None) →
  armed d o c keys
  = imap (λ i k, {| timer_delay := d;
                    timer_call := {| call_key := k; call_index := c + i |} |})
      keys.
Proof.
  intros Ho. revert c. induction keys as [|k keys IH]; intros c; [done|].
  cbn. rewrite Ho, Nat.add_0_r. f_equal. rewrite IH.
  apply imap_ext. intros i k' _. cbn. do 2 f_equal. lia.
Qed.

Lemma member_ordinary o key : ordinary key → member o key = None.
Proof. unfold ordinary, member. intros ->. by destruct (get _ _). Qed.

Lemma plain_ordinary keys : Forall plain keys → Forall ordinary keys.
Proof. intros H. eapply Forall_impl; [done|]. by intros k [? _]. Qed.

Lemma member_Some o key m :
  member o key = Some m →
  m = ToPropertyKey key ∧ inherited m = true ∧ get o m = None
  ∧ cached o key = None.
Proof.
  unfold member, cached. destruct (get _ _) eqn:Hg; [done|].
  destruct (inherited _) eqn:Hi; [|done]. by intros [= <-].
Qed.

(** A call whose key names a member of [Object.prototype] that the cache
    does not hide returns that member, and nothing else happens. *)
Lemma load_member key w m :
  member (promises (this w)) key = Some m →
  load key w = with_calls (calls w ++ [(key, Some (ReturnMember m))]) w.
Proof.
  unfold member, load, load_enter. destruct (get _ _); [done|].
  destruct (inherited _); [|done]. by intros [= <-].
Qed.

Lemma load_calls key w :
  member (promises (this w)) key = None →
  calls (load key w) = calls w ++ [(key, Return <$> cached (promises (this w)) key)].
Proof.
  unfold member, load, load_enter, cached.
  destruct (get _ _) as [[|p]|]; [done..|]. by destruct (inherited _).
Qed.

Lemma load_promises key w :
  member (promises (this w)) key = None →
  promises (this (load key w))
  = match cached (promises (this w)) key with
    | Some _ => promises (this w)
    | None => set (promises (this w)) (ToPropertyKey key) ENull
    end.
Proof.
  unfold member, load, load_enter, cached.
  destruct (get _ _) as [[|p]|]; [done..|]. by destruct (inherited _).
Qed.

Lemma load_timers key w :
  member (promises (this w)) key = None →
  timers (load key w)
  = timers w
    ++ match cached (promises (this w)) key with
       | Some _ => []
       | None =>
           [{| timer_delay := delay (this_schedulingFn (this w));
               timer_call := {| call_key := key;
                                call_index := length (calls w) |} |}]
       end.
Proof.
  unfold member, load, load_enter, cached.
  destruct (get _ _) as [[|p]|]; cbn; rewrite ?app_nil_r; [done..|].
  by destruct (inherited _).
Qed.

(** A call of [load] touches neither the active query nor the batch
    function, and makes no promise. *)
Lemma load_frame key w :
  activeQuery (this (load key w)) = activeQuery (this w)
  ∧ this_batchFn (this (load key w)) = this_batchFn (this w)
  ∧ queries (load key w) = queries w
  ∧ thens (load key w) = thens w
  ∧ batch_calls (load key w) = batch_calls w
  ∧ console (load key w) = console w
  ∧ this_schedulingFn (this (load key w)) = this_schedulingFn (this w).
Proof.
  unfold load, load_enter.
  destruct (get _ _) as [[|p]|]; [done..|]. by destruct (inherited _).
Qed.

(** A call of [load] leaves every promise of the cache where it is, and
    stores none. *)
Lemma load_cached key w k :
  cached (promises (this (load key w))) k = cached (promises (this w)) k.
Proof.
  destruct (member (promises (this w)) key) as [m|] eqn:Hm.
  { by rewrite (load_member _ _ _ Hm). }
  rewrite load_promises by done. destruct (cached _ key) eqn:Hkey; [done|].
  unfold cached in *.
  destruct (decide (ToPropertyKey key = ToPropertyKey k)) as [Heq|Hne].
  - rewrite <-Heq, get_set_eq.
    by destruct (get _ (ToPropertyKey key)) as [[|p]|].
  - by rewrite get_set_ne.
Qed.

Lemma load_names key w :
  member (promises (this w)) key = None →
  (promises (this (load key w))).*1
  = (promises (this w)).*1
    ++ distinct_from (promises (this w)).*1 [ToPropertyKey key].
Proof.
  intros Hm. rewrite load_promises by done. cbn.
  destruct (cached _ key) eqn:Hkey.
  - rewrite decide_True, app_nil_r; [done|].
    apply get_is_Some. unfold cached in Hkey.
    destruct (get _ _); [eauto | done].
  - rewrite set_names. by case_decide; rewrite ?app_nil_r.
Qed.

(** A run of calls with no firing in between: the calls that find a promise
    return it, the others register their name and arm a timer. *)
Lemma loads_spec keys :
  Forall ordinary keys →
  ∀ w,
    let w' := run (CallLoad <$> keys) w in
    activeQuery (this w') = activeQuery (this w)
    ∧ this_batchFn (this w') = this_batchFn (this w)
    ∧ queries w' = queries w
    ∧ thens w' = thens w
    ∧ batch_calls w' = batch_calls w
    ∧ calls w'
      = calls w
        ++ ((λ k, (k, Return <$> cached (promises (this w)) k)) <$> keys)
    ∧ (promises (this w')).*1
      = (promises (this w)).*1
        ++ distinct_from (promises (this w)).*1 (ToPropertyKey <$> keys)
    ∧ (∀ k, cached (promises (this w')) k = cached (promises (this w)) k)
    ∧ timers w'
      = timers w
        ++ armed (delay (this_schedulingFn (this w))) (promises (this w))
             (length (calls w)) keys.
Proof.
  induction keys as [|key keys IH]; intros Hord w.
  { cbn. by rewrite !app_nil_r. }
  apply Forall_cons in Hord as [Hkey Hord]. specialize (IH Hord).
  pose proof (member_ordinary (promises (this w)) key Hkey) as Hm.
  cbn [fmap list_fmap run foldl step].
  fold (run (CallLoad <$> keys) (load key w)).
  destruct (IH (load key w)) as (Haq & Hbf & Hqs & Hths & Hbs & Hcs & Hns & Hca & Hts).
  destruct (load_frame key w) as (Haq0 & Hbf0 & Hqs0 & Hths0 & Hbs0 & _ & Hsf0).
  split_and!; try congruence.
  - rewrite Hcs, load_calls, <-app_assoc by done. cbn. do 2 f_equal.
    apply list_fmap_ext. intros _ k _. by rewrite load_cached.
  - rewrite Hns, load_names by done. cbn.
    case_decide; by rewrite ?app_nil_r, <-?app_assoc.
  - intros k. by rewrite Hca, load_cached.
  - rewrite Hts, (load_timers _ _ Hm), (load_calls _ _ Hm), length_app, Hsf0,
      <-app_assoc.
    cbn [length armed]. f_equal.
    replace (length (calls w) + 1) with (S (length (calls w))) by lia.
    assert (∀ d c l, armed d (promises (this (load key w))) c l
                     = armed d (promises (this w)) c l) as ->.
    { intros d c l. revert c. induction l as [|k l IHl]; intros c; [done|].
      cbn. by rewrite load_cached, IHl. }
    by destruct (cached _ key).
Qed.

Lemma fire_idle w : timers w = [] → fire w = w.
Proof. unfold fire. by intros ->. Qed.

(** The call resumed by a timer, when the active query is already there. *)
Lemma fire_joins w t ts q :
  timers w = t :: ts → activeQuery (this w) = Some q →
  fire w
  = with_calls
      (alter (λ c, (c.1, Some (Return (length (thens w)))))
         (call_index (timer_call t)) (calls w))
      (with_promises
         (set (promises (this w)) (ToPropertyKey (call_key (timer_call t)))
            (EPromise (length (thens w))))
         (with_thens (thens w ++ [(q, call_key (timer_call t))])
            (with_timers ts w))).
Proof.
  intros Ht Hq. unfold fire, load_resume, dispatch. rewrite Ht. cbn.
  rewrite Hq. cbn. by rewrite Hq.
Qed.

(** The call resumed by a timer, when there is no active query yet and the
    batch function returns a thenable. *)
Lemma fire_dispatches w t ts f q :
  timers w = t :: ts → activeQuery (this w) = None →
  this_batchFn (this w) = Some f →
  f (Object_keys (promises (this w))) = inr q →
  fire w
  = with_calls
      (alter (λ c, (c.1, Some (Return (length (thens w)))))
         (call_index (timer_call t)) (calls w))
      (with_promises
         (set (promises (this w)) (ToPropertyKey (call_key (timer_call t)))
            (EPromise (length (thens w))))
         (with_thens
            (thens w ++ [(length (queries w), call_key (timer_call t))])
            (with_activeQuery (Some (length (queries w)))
               (with_queries (queries w ++ [q])
                  (with_batch_calls
                     (batch_calls w ++ [Object_keys (promises (this w))])
                     (with_console
                        (console w
                         ++ ["SELECT * from users WHERE id in ("
                             +:+ join "," (Object_keys (promises (this w)))
                             +:+ ")"])
                        (with_timers ts w))))))).
Proof.
  intros Ht Hq Hf Hids. unfold fire, load_resume, dispatch. rewrite Ht. cbn.
  rewrite Hq. cbn. unfold this_batchFn in *. cbn. rewrite Hf. cbn.
  by rewrite Hids.
Qed.

(** The call resumed by a timer, when the batch function throws: the call
    ends there, and there is still no active query. *)
Lemma fire_throws w t ts f e :
  timers w = t :: ts → activeQuery (this w) = None →
  this_batchFn (this w) = Some f →
  f (Object_keys (promises (this w))) = inl e →
  fire w
  = with_calls
      (alter (λ c, (c.1, Some (Throw e)))
         (call_index (timer_call t)) (calls w))
      (with_batch_calls
         (batch_calls w ++ [Object_keys (promises (this w))])
         (with_console
            (console w
             ++ ["SELECT * from users WHERE id in ("
                 +:+ join "," (Object_keys (promises (this w)))
                 +:+ ")"])
            (with_timers ts w))).
Proof.
  intros Ht Hq Hf Hids. unfold fire, load_resume, dispatch. rewrite Ht. cbn.
  rewrite Hq. cbn. unfold this_batchFn in *. cbn. rewrite Hf. cbn.
  by rewrite Hids.
Qed.

(** ** Worlds a loader can reach *)

Section Reach.
Variable f : BatchFn.

Lemma wf_new_world options :
  wf f (new_world (constructor (Some f) options)).
Proof.
  split; cbn; try done.
  - constructor.
  - intros t Ht. by apply elem_of_nil in Ht.
Qed.

Lemma wf_load key w : wf f w → wf f (load key w).
Proof.
  intros [Hf Hq Hth He Hc Hnd Ht].
  destruct (member (promises (this w)) key) as [m|] eqn:Hm.
  { rewrite (load_member _ _ _ Hm). split; cbn; try done.
    - intros c k p. rewrite lookup_snoc_Some.
      intros [[_ Hl]|[_ Hl]]; [by eapply Hc|done].
    - intros t Hin. destruct (Ht t Hin) as [Hl Hn].
      split; [by apply lookup_app_l_Some|done]. }
  destruct (load_frame key w) as (Haq & Hbf & Hqs & Hths & _).
  split.
  - by rewrite Hbf.
  - by rewrite Haq, Hqs, Hths.
  - by rewrite Hths.
  - rewrite Hths, load_promises by done. intros name p.
    destruct (cached _ key); [apply He|].
    destruct (decide (ToPropertyKey key = name)) as [<-|Hne].
    + by rewrite get_set_eq.
    + rewrite get_set_ne by done. apply He.
  - rewrite Hths, load_calls by done. intros c k p.
    rewrite lookup_snoc_Some. intros [[_ Hl]|[_ Hl]]; [by eapply Hc|].
    unfold cached in Hl.
    destruct (get _ (ToPropertyKey key)) as [[|p']|] eqn:Hg;
      simplify_eq/=.
    by apply He.
  - rewrite load_timers, fmap_app, NoDup_app by done. split; [done|]. split.
    + intros c Hc' Hnew.
      apply list_elem_of_fmap in Hc' as (t & -> & Hin).
      apply Ht in Hin as [Hin%lookup_lt_Some _].
      destruct (cached _ key); cbn in Hnew;
        [by apply elem_of_nil in Hnew|].
      apply list_elem_of_singleton in Hnew. cbn in *. lia.
    + destruct (cached _ key); cbn; [constructor|].
      apply NoDup_singleton.
  - rewrite load_timers, load_calls, load_promises by done. intros t.
    rewrite elem_of_app. intros [Hin|Hin].
    + destruct (Ht t Hin) as [Hl Hn]. split.
      * by apply lookup_app_l_Some.
      * destruct (cached _ key); [done|]. by apply set_names_keeps.
    + destruct (cached _ key) eqn:Hca; [by apply elem_of_nil in Hin|].
      apply list_elem_of_singleton in Hin as ->. cbn. split.
      * by rewrite lookup_app_r, Nat.sub_diag by lia.
      * apply get_is_Some. rewrite get_set_eq. eauto.
Qed.

(** The world after a suspended call has gone through
    [this.promises[key] = this.activeQuery.then(...)], whatever else the
    step did to the fields that [w'] carries. *)
Lemma wf_resumed w w' t ts :
  wf f w → timers w = t :: ts →
  this_batchFn (this w') = Some f →
  activeQuery (this w') = Some 0 → length (queries w') = 1 →
  (activeQuery (this w) = None ∨ activeQuery (this w) = Some 0) →
  thens w' = thens w → promises (this w') = promises (this w) →
  calls w' = calls w → timers w' = ts →
  wf f
    (with_calls
       (alter (λ c, (c.1, Some (Return (length (thens w')))))
          (call_index (timer_call t)) (calls w'))
       (with_promises
          (set (promises (this w'))
             (ToPropertyKey (call_key (timer_call t)))
             (EPromise (length (thens w'))))
          (with_thens (thens w' ++ [(0, call_key (timer_call t))]) w'))).
Proof.
  intros [_ Hq Hth He Hc Hnd Ht] Hts Hf' Hq' Hqs' Hq0 Hths' Hps' Hcs' Hts'.
  rewrite Hts in Hnd, Ht. rewrite fmap_cons, NoDup_cons in Hnd.
  destruct Hnd as [Hhd Hnd].
  split; cbn; rewrite ?Hths', ?Hps', ?Hcs', ?Hts'.
  - done.
  - by rewrite Hq'.
  - intros p q k. rewrite lookup_snoc_Some.
    intros [[_ Hl]|[_ [= <- _]]]; [by eapply Hth | done].
  - intros name p.
    destruct (decide (ToPropertyKey (call_key (timer_call t)) = name))
      as [<-|Hne].
    + rewrite get_set_eq. intros [= <-]. eexists. split; [|done].
      by rewrite lookup_app_r, Nat.sub_diag by lia.
    + rewrite get_set_ne by done. intros Hg.
      destruct (He _ _ Hg) as (k & Hk & Hname).
      exists k. split; [by apply lookup_app_l_Some | done].
  - intros c k p. rewrite list_lookup_alter. case_decide as Hidx.
    + subst c. destruct (Ht t) as [Hl _]; [apply list_elem_of_here|].
      rewrite Hl. cbn. intros [= <- <-].
      eexists. split; [|done].
      by rewrite lookup_app_r, Nat.sub_diag by lia.
    + intros Hl. destruct (Hc _ _ _ Hl) as (k' & Hk' & Hname).
      exists k'. split; [by apply lookup_app_l_Some | done].
  - done.
  - intros t' Hin. destruct (Ht t') as [Hl Hn];
      [by apply list_elem_of_further|]. split.
    + rewrite list_lookup_alter_ne; [done|].
      intros Heq. apply Hhd.
      by apply (list_elem_of_fmap_2' _ _ t').
    + by apply set_names_keeps.
Qed.

Lemma wf_fire w : wf f w → wf f (fire w).
Proof.
  intros Hw. destruct (timers w) as [|t ts] eqn:Hts.
  { by rewrite fire_idle. }
  pose proof Hw as [Hf Hq Hth He Hc Hnd Ht].
  destruct (activeQuery (this w)) as [q|] eqn:Haq.
  - destruct Hq as [-> Hqs]. rewrite (fire_joins _ _ _ _ Hts Haq).
    by apply (wf_resumed w (with_timers ts w) t ts); auto.
  - destruct Hq as [Hqs Hths].
    destruct (f (Object_keys (promises (this w)))) as [e|q] eqn:Hids.
    + rewrite (fire_throws _ _ _ _ _ Hts Haq Hf Hids).
      rewrite Hts in Hnd, Ht. rewrite fmap_cons, NoDup_cons in Hnd.
      destruct Hnd as [Hhd Hnd].
      split; cbn; try done.
      * by rewrite Haq.
      * intros c k p. rewrite list_lookup_alter. case_decide as Hidx.
        -- subst c. destruct (Ht t) as [Hl _]; [apply list_elem_of_here|].
           by rewrite Hl.
        -- apply Hc.
      * intros t' Hin. destruct (Ht t') as [Hl Hn];
          [by apply list_elem_of_further|]. split; [|done].
        rewrite list_lookup_alter_ne; [done|].
        intros Heq. apply Hhd.
        by apply (list_elem_of_fmap_2' _ _ t').
    + rewrite (fire_dispatches _ _ _ _ _ Hts Haq Hf Hids). rewrite Hqs.
      set (w' := with_activeQuery _ _).
      apply (wf_resumed w w' t ts); subst w'; cbn; auto.
Qed.

(** What one firing does to a reachable world whose batch function does
    not throw. *)
Lemma fire_resumes w t ts :
  wf f w → dispatchable f w → timers w = t :: ts →
  timers (fire w) = ts
  ∧ activeQuery (this (fire w)) = Some 0
  ∧ thens (fire w) = thens w ++ [(0, call_key (timer_call t))]
  ∧ promises (this (fire w))
    = set (promises (this w)) (ToPropertyKey (call_key (timer_call t)))
        (EPromise (length (thens w)))
  ∧ calls (fire w)
    = alter (λ c, (c.1, Some (Return (length (thens w)))))
        (call_index (timer_call t)) (calls w)
  ∧ match activeQuery (this w) with
    | Some _ =>
        queries (fire w) = queries w ∧ batch_calls (fire w) = batch_calls w
    | None =>
        ∃ q, f (Object_keys (promises (this w))) = inr q
             ∧ queries (fire w) = [q]
             ∧ batch_calls (fire w)
               = batch_calls w ++ [Object_keys (promises (this w))]
    end.
Proof.
  intros [Hf Hq _ _ _ _ _] Hd Hts. unfold dispatchable in Hd.
  destruct (activeQuery (this w)) as [q|] eqn:Haq.
  - destruct Hq as [-> _]. by rewrite (fire_joins _ _ _ _ Hts Haq).
  - destruct Hq as [Hqs _]. destruct Hd as [q Hids].
    rewrite (fire_dispatches _ _ _ _ _ Hts Haq Hf Hids). cbn.
    rewrite Hqs. repeat split; eauto.
Qed.

Lemma wf_step w e : wf f w → wf f (step w e).
Proof. destruct e; [apply wf_load | apply wf_fire]. Qed.

Lemma wf_run es w : wf f w → wf f (run es w).
Proof.
  revert w. induction es as [|e es IH]; intros w Hw; [done|].
  apply IH, wf_step, Hw.
Qed.

Lemma run_app es es' w : run (es ++ es') w = run es' (run es w).
Proof. apply foldl_app. Qed.

Lemma run_idle n w : timers w = [] → run (replicate n Fire) w = w.
Proof.
  intros Hts. induction n as [|n IH]; [done|].
  cbn. by rewrite fire_idle.
Qed.

(** Every armed timer fires in turn: each suspended call returns a promise
    of its own on the one active query. *)
Lemma fires_spec ts :
  ∀ w, wf f w → dispatchable f w → timers w = ts →
    let w' := run (replicate (length ts) Fire) w in
    timers w' = []
    ∧ length (calls w') = length (calls w)
    ∧ activeQuery (this w')
      = match ts with [] => activeQuery (this w) | _ => Some 0 end
    ∧ thens w' = thens w ++ ((λ t, (0, call_key (timer_call t))) <$> ts)
    ∧ (∀ j t, ts !! j = Some t →
         calls w' !! call_index (timer_call t)
         = Some (call_key (timer_call t),
                 Some (Return (length (thens w) + j))))
    ∧ (∀ c, c ∉ (call_index ∘ timer_call <$> ts) →
         calls w' !! c = calls w !! c)
    ∧ (promises (this w')).*1 = (promises (this w)).*1
    ∧ (∀ name, name ∉ (ToPropertyKey ∘ call_key ∘ timer_call <$> ts) →
         get (promises (this w')) name = get (promises (this w)) name)
    ∧ (∀ t, t ∈ ts →
         ∃ p, get (promises (this w'))
                (ToPropertyKey (call_key (timer_call t)))
              = Some (EPromise p)
              ∧ length (thens w) ≤ p)
    ∧ match activeQuery (this w), ts with
      | None, _ :: _ =>
          ∃ q, f (Object_keys (promises (this w))) = inr q
               ∧ queries w' = [q]
               ∧ batch_calls w'
                 = batch_calls w ++ [Object_keys (promises (this w))]
      | _, _ => queries w' = queries w ∧ batch_calls w' = batch_calls w
      end.
Proof.
  induction ts as [|t ts IH]; intros w Hw Hd Hts.
  { cbn. rewrite app_nil_r. split_and!; try done.
    - intros t Ht. by apply elem_of_nil in Ht.
    - by destruct (activeQuery (this w)). }
  cbn [length replicate run foldl step]. fold (run (replicate (length ts) Fire) (fire w)).
  destruct (fire_resumes w t ts Hw Hd Hts)
    as (Hts1 & Haq1 & Hth1 & Hp1 & Hc1 & Hb1).
  assert (wf f (fire w)) as Hw1 by by apply wf_fire.
  assert (dispatchable f (fire w)) as Hd1.
  { unfold dispatchable. by rewrite Haq1. }
  destruct (IH (fire w) Hw1 Hd1 Hts1)
    as (Hts2 & Hlen2 & Haq2 & Hth2 & Hc2 & Hc2' & Hn2 & Hg2 & He2 & Hb2).
  clear IH. set (w' := run _ (fire w)) in *.
  destruct Hw as [_ _ _ _ _ Hnd Ht]. rewrite Hts in Hnd, Ht.
  rewrite fmap_cons, NoDup_cons in Hnd. destruct Hnd as [Hhd Hnd].
  destruct (Ht t) as [Hlt Hnt]; [apply list_elem_of_here|].
  assert (activeQuery (this w') = Some 0) as Haq'.
  { rewrite Haq2. by destruct ts. }
  split_and!.
  - done.
  - by rewrite Hlen2, Hc1, length_alter.
  - done.
  - rewrite Hth2, Hth1, fmap_cons, <-app_assoc. done.
  - intros [|j] t' Hj; cbn in Hj.
    + injection Hj as <-. rewrite Hc2' by done.
      rewrite Hc1, list_lookup_alter_eq, Hlt, Nat.add_0_r. done.
    + rewrite (Hc2 j t' Hj), Hth1, length_app. cbn [length].
      by replace (length (thens w) + 1 + j) with (length (thens w) + S j)
        by lia.
  - intros c. rewrite fmap_cons, not_elem_of_cons. intros [Hne Hc].
    rewrite Hc2' by done. rewrite Hc1.
    by rewrite list_lookup_alter_ne by done.
  - rewrite Hn2, Hp1. by apply set_names_known.
  - intros name. rewrite fmap_cons, not_elem_of_cons. intros [Hne Hn].
    rewrite Hg2 by done. rewrite Hp1. by apply get_set_ne.
  - intros t' Hin.
    apply elem_of_cons in Hin as [->|Hin']; cycle 1.
    { destruct (He2 t' Hin') as (p & Hp & Hle). exists p. split; [done|].
      rewrite Hth1, length_app in Hle. lia. }
    destruct (decide (ToPropertyKey (call_key (timer_call t))
                      ∈ (ToPropertyKey ∘ call_key ∘ timer_call <$> ts)))
      as [Hshared|Halone].
    + apply list_elem_of_fmap in Hshared as (t' & Heq & Hin').
      destruct (He2 t' Hin') as (p & Hp & Hle). exists p.
      cbn in Heq. rewrite Heq. split; [done|].
      rewrite Hth1, length_app in Hle. lia.
    + exists (length (thens w)). split; [|done].
      rewrite Hg2 by done. rewrite Hp1. apply get_set_eq.
  - destruct (activeQuery (this w)) as [q|] eqn:Haq.
    + destruct Hb1 as [Hq1 Hb1]. rewrite Haq1 in Hb2.
      destruct Hb2 as [-> ->]. done.
    + destruct Hb1 as (q & Hq & Hq1 & Hb1). rewrite Haq1 in Hb2.
      destruct Hb2 as [-> ->]. eauto.
Qed.

(** A scheduling window that opens with no timer pending: the calls, then
    the firings.  A call that found a promise returns it; every other call
    returns its own promise on the one active query, which the first
    firing creates if it is not there yet. *)
Lemma window_spec keys w :
  Forall ordinary keys → wf f w → timers w = [] →
  (activeQuery (this w) = None →
   ∃ q, f (own_keys ((promises (this w)).*1
                     ++ distinct_from (promises (this w)).*1
                          (ToPropertyKey <$> keys)))
        = inr q) →
  let w' := run (window keys) w in
  let ts := armed (delay (this_schedulingFn (this w))) (promises (this w))
              (length (calls w)) keys in
  wf f w'
  ∧ timers w' = []
  ∧ length (calls w') = length (calls w) + length keys
  ∧ (promises (this w')).*1
    = (promises (this w)).*1
      ++ distinct_from (promises (this w)).*1 (ToPropertyKey <$> keys)
  ∧ thens w' = thens w ++ ((λ t, (0, call_key (timer_call t))) <$> ts)
  ∧ (∀ i k, keys !! i = Some k →
       ∃ p, calls w' !! (length (calls w) + i) = Some (k, Some (Return p))
            ∧ match cached (promises (this w)) k with
              | Some p' => p = p'
              | None => length (thens w) ≤ p ∧ thens w' !! p = Some (0, k)
              end)
  ∧ (∀ k, k ∈ keys →
       ∃ p, get (promises (this w')) (ToPropertyKey k) = Some (EPromise p))
  ∧ match activeQuery (this w), ts with
    | None, _ :: _ =>
        ∃ q, f (own_keys ((promises (this w)).*1
                          ++ distinct_from (promises (this w)).*1
                               (ToPropertyKey <$> keys)))
             = inr q
             ∧ queries w' = [q]
             ∧ batch_calls w'
               = batch_calls w
                 ++ [own_keys ((promises (this w)).*1
                               ++ distinct_from (promises (this w)).*1
                                    (ToPropertyKey <$> keys))]
    | _, _ => queries w' = queries w ∧ batch_calls w' = batch_calls w
    end.
Proof.
  intros Hord Hw Hts0 Hd. cbn zeta. unfold window. rewrite run_app.
  set (ts := armed _ _ _ _).
  destruct (loads_spec keys Hord w)
    as (Haq & Hbf & Hqs & Hths & Hbs & Hcs & Hns & Hca & Hts).
  rewrite Hts0, app_nil_l in Hts. fold ts in Hts.
  set (w1 := run (CallLoad <$> keys) w) in *.
  assert (wf f w1) as Hw1 by by apply wf_run.
  assert (dispatchable f w1) as Hd1.
  { unfold dispatchable, Object_keys. rewrite Haq, Hns.
    destruct (activeQuery (this w)); auto. }
  assert (length ts ≤ length keys) as Hlen by apply armed_length.
  replace (replicate (length keys) Fire)
    with (replicate (length ts) Fire
          ++ replicate (length keys - length ts) Fire)
    by (rewrite <-replicate_add; f_equal; lia).
  rewrite run_app.
  destruct (fires_spec ts w1 Hw1 Hd1 Hts)
    as (Hts2 & Hlen2 & Haq2 & Hth2 & Hc2 & Hc2' & Hn2 & Hg2 & He2 & Hb2).
  set (w2 := run (replicate (length ts) Fire) w1) in *.
  rewrite (run_idle _ w2 Hts2).
  assert (wf f w2) as Hw2 by by apply wf_run.
  split_and!.
  - done.
  - done.
  - by rewrite Hlen2, Hcs, length_app, length_fmap.
  - by rewrite Hn2.
  - by rewrite Hth2, Hths.
  - intros i k Hi.
    assert (calls w1 !! (length (calls w) + i)
            = Some (k, Return <$> cached (promises (this w)) k)) as Hl.
    { rewrite Hcs, lookup_app_r by lia.
      replace (length (calls w) + i - length (calls w)) with i by lia.
      by rewrite list_lookup_fmap, Hi. }
    destruct (cached (promises (this w)) k) as [p'|] eqn:Hk.
    + exists p'. split; [|done]. rewrite Hc2'; [done|].
      intros (t & Hidx & Hin)%list_elem_of_fmap.
      apply armed_elem_of in Hin as (i' & Hi' & Hl' & Hk').
      cbn in Hidx. assert (i' = i) as -> by lia.
      rewrite Hi in Hl'. injection Hl' as Hl'. congruence.
    + destruct (armed_lookup (delay (this_schedulingFn (this w)))
                  (promises (this w)) (length (calls w)) keys i k Hi Hk)
        as [j Hj].
      fold ts in Hj. exists (length (thens w1) + j).
      pose proof (Hc2 j _ Hj) as Hc. cbn in Hc. rewrite Hc.
      split; [done|]. split; [rewrite Hths; lia|].
      rewrite Hth2, lookup_app_r by lia.
      replace (length (thens w1) + j - length (thens w1)) with j by lia.
      by rewrite list_lookup_fmap, Hj.
  - intros k Hin.
    destruct (cached (promises (this w)) k) as [p'|] eqn:Hk.
    + exists p'. rewrite Hg2.
      * apply cached_Some. by rewrite Hca.
      * intros (t & Hname & Hin')%list_elem_of_fmap.
        apply armed_elem_of in Hin' as (_ & _ & _ & Hk').
        cbn in Hname. rewrite (cached_name _ _ _ Hname) in Hk. congruence.
    + apply list_elem_of_lookup_1 in Hin as [i Hi].
      destruct (armed_lookup (delay (this_schedulingFn (this w)))
                  (promises (this w)) (length (calls w)) keys i k Hi Hk)
        as [j Hj].
      fold ts in Hj. apply list_elem_of_lookup_2 in Hj.
      destruct (He2 _ Hj) as (p & Hp & _). eauto.
  - rewrite Haq in Hb2. unfold Object_keys in Hb2. rewrite Hns in Hb2.
    rewrite Hqs, Hbs in Hb2. done.
Qed.

End Reach.

(** ** The first window of a new loader *)

Section FirstWindow.
Variable StringToNumber : string → number.
Variable f : BatchFn.
Variable options : option Options.

Abbreviation result := (result StringToNumber).
Abbreviation settle := (settle StringToNumber).

(** A call that has returned a promise on the one query settles as that
    query does, through the selection of the promise's key. *)
Lemma result_returned w c k p k' q :
  calls w !! c = Some (k, Some (Return p)) →
  thens w !! p = Some (0, k') → queries w = [q] →
  result w c = settle q k'.
Proof.
  intros Hc Hp Hq. unfold result, then_outcome. by rewrite Hc, Hp, Hq.
Qed.

Lemma first_window keys q :
  Forall ordinary keys → keys ≠ [] →
  f (own_keys (first_requests (ToPropertyKey <$> keys))) = inr q →
  let w := run (window keys) (new_world (constructor (Some f) options)) in
  wf f w
  ∧ timers w = []
  ∧ length (calls w) = length keys
  ∧ activeQuery (this w) = Some 0
  ∧ queries w = [q]
  ∧ batch_calls w = [own_keys (first_requests (ToPropertyKey <$> keys))]
  ∧ (promises (this w)).*1 = first_requests (ToPropertyKey <$> keys)
  ∧ (∀ i k, keys !! i = Some k → result w i = settle q k)
  ∧ (∀ k, k ∈ keys →
       ∃ p k', get (promises (this w)) (ToPropertyKey k) = Some (EPromise p)
               ∧ thens w !! p = Some (0, k')
               ∧ k' ∈ keys
               ∧ ToPropertyKey k' = ToPropertyKey k).
Proof.
  intros Hord Hne Hq. cbn zeta.
  set (w0 := new_world (constructor (Some f) options)).
  destruct (window_spec f keys w0)
    as (Hw & Hts & Hlen & Hns & Hth & Hc & He & Hb).
  { done. }
  { apply wf_new_world. }
  { done. }
  { intros _. exists q. exact Hq. }
  set (w := run (window keys) w0) in *.
  assert (queries w = [q] ∧ batch_calls w
            = [own_keys (first_requests (ToPropertyKey <$> keys))])
    as [Hqs Hbs].
  { destruct keys as [|k keys]; [done|].
    cbn -[own_keys distinct_from fmap] in Hb.
    destruct Hb as (q' & Hq' & Hqs & Hbs).
    change (f (own_keys (first_requests (ToPropertyKey <$> k :: keys)))
            = inr q') in Hq'.
    rewrite Hq in Hq'. injection Hq' as <-. done. }
  split_and!; try done.
  - pose proof (wf_query _ _ Hw) as Haq. rewrite Hqs in Haq.
    destruct (activeQuery (this w)); [by destruct Haq as [-> _]|].
    by destruct Haq.
  - intros i k Hi. destruct (Hc i k Hi) as (p & Hp & _ & Hthp).
    by apply (result_returned w i k p k q).
  - intros k Hin. destruct (He k Hin) as (p & Hp). exists p.
    destruct (wf_entries _ _ Hw _ _ Hp) as (k' & Hk' & Hname).
    exists k'. split_and!; try done.
    rewrite Hth in Hk'. cbn in Hk'.
    apply list_elem_of_lookup_2, list_elem_of_fmap in Hk'
      as (t & [= ->] & (i & _ & Hi & _)%armed_elem_of).
    by apply list_elem_of_lookup_2 in Hi.
Qed.

End FirstWindow.

(** ** Once a query is active *)

(** Nothing ever clears [this.activeQuery]: once it is set, no later call or
    firing invokes the batch function again. *)
Lemma dispatched_stays es :
  ∀ w q, activeQuery (this w) = Some q →
    activeQuery (this (run es w)) = Some q
    ∧ queries (run es w) = queries w
    ∧ batch_calls (run es w) = batch_calls w.
Proof.
  induction es as [|e es IH]; intros w q Hq; [done|].
  cbn [run foldl]. fold (run es (step w e)).
  assert (activeQuery (this (step w e)) = Some q
          ∧ queries (step w e) = queries w
          ∧ batch_calls (step w e) = batch_calls w) as (Hq' & <- & <-).
  { destruct e as [key|]; cbn [step].
    - destruct (load_frame key w) as (-> & _ & -> & _ & -> & _). done.
    - destruct (timers w) as [|t ts] eqn:Hts.
      + by rewrite fire_idle.
      + by rewrite (fire_joins _ _ _ _ Hts Hq). }
  by apply IH.
Qed.

Section Invocations.
Variable f : BatchFn.

(** A batch function that never throws sets the active query each time it
    is invoked. *)
Hypothesis f_returns : ∀ ids, ∃ q, f ids = inr q.

Lemma invocations_step w e :
  wf f w → length (batch_calls w) = length (queries w) →
  length (batch_calls (step w e)) = length (queries (step w e)).
Proof.
  intros Hw Hlen. destruct e as [key|]; cbn [step].
  - destruct (load_frame key w) as (_ & _ & -> & _ & -> & _). done.
  - destruct (timers w) as [|t ts] eqn:Hts; [by rewrite fire_idle|].
    destruct (fire_resumes f w t ts Hw) as (_ & _ & _ & _ & _ & Hb);
      [|done|].
    { unfold dispatchable. destruct (activeQuery (this w)); auto. }
    pose proof (wf_query _ _ Hw) as Hnone.
    destruct (activeQuery (this w)).
    + destruct Hb as [-> ->]. done.
    + destruct Hb as (q & _ & Hq & Hb), Hnone as [Hqs _].
      rewrite Hq, Hb, length_app, Hlen, Hqs. done.
Qed.

Lemma invocations_run es :
  ∀ w, wf f w → length (batch_calls w) = length (queries w) →
    length (batch_calls (run es w)) = length (queries (run es w)).
Proof.
  induction es as [|e es IH]; intros w Hw Hlen; [done|].
  apply IH; [by apply wf_step | by apply invocations_step].
Qed.

(** One invocation at most, however the calls and the firings are
    interleaved. *)
Lemma invoked_at_most_once options es :
  length (batch_calls (run es (new_world (constructor (Some f) options))))
  ≤ 1.
Proof.
  set (w := run es _).
  assert (wf f w) as Hw by apply wf_run, wf_new_world.
  assert (length (batch_calls w) = length (queries w)) as ->
    by (apply invocations_run; [apply wf_new_world | done]).
  pose proof (wf_query _ _ Hw) as Hq.
  destruct (activeQuery (this w)); [lia|]. destruct Hq as [-> _]. cbn. lia.
Qed.

End Invocations.

Section Settles.
Variable StringToNumber : string → number.
Variable f : BatchFn.

Abbreviation result := (result StringToNumber).
Abbreviation settle := (settle StringToNumber).
Abbreviation select := (select StringToNumber).

(** In a reachable world a call that has returned settles as the one
    query does, through the selection of a key that has its name. *)
Lemma returned_settles w c k p :
  wf f w → calls w !! c = Some (k, Some (Return p)) →
  ∃ q k', queries w = [q]
          ∧ thens w !! p = Some (0, k')
          ∧ ToPropertyKey k' = ToPropertyKey k
          ∧ result w c = settle q k'.
Proof.
  intros Hw Hc. destruct (wf_calls _ _ Hw _ _ _ Hc) as (k' & Hp & Hname).
  pose proof (wf_query _ _ Hw) as Hq.
  destruct (activeQuery (this w)).
  - destruct Hq as [_ Hlen].
    destruct (queries w) as [|q [|]] eqn:Hqs; try done.
    exists q, k'. split_and!; try done.
    by apply (result_returned _ w c k p k' q).
  - destruct Hq as [_ Hth]. by rewrite Hth in Hp.
Qed.

Lemma select_None key items :
  (∀ it, it ∈ items → strict_equals (id it) (Number StringToNumber key) = false) →
  select key items = None.
Proof.
  unfold select. induction items as [|it items IH]; intros Hno; [done|].
  cbn. rewrite Hno by apply list_elem_of_here.
  apply IH. intros it' Hin. by apply Hno, list_elem_of_further.
Qed.

(** The element selected is one of the items, and its [id] is the number
    [Number(key)]. *)
Lemma select_Some key items it :
  select key items = Some it →
  it ∈ items ∧ id it = VNum (Number StringToNumber key)
  ∧ Number StringToNumber key ≠ NaN.
Proof.
  unfold select. intros Hfind. apply find_some in Hfind as [Hin Heq].
  split; [by apply list_elem_of_In|].
  unfold strict_equals, number_strict_equals in Heq.
  destruct (id it) as [| | |[|x]|]; try done.
  destruct (Number StringToNumber key) as [|y]; [done|].
  apply bool_decide_eq_true in Heq as ->. done.
Qed.


Lemma select_NaN key items :
  Number StringToNumber key = NaN → select key items = None.
Proof.
  intros Hnan. apply select_None. intros it _. rewrite Hnan.
  unfold strict_equals, number_strict_equals.
  by destruct (id it) as [| | |[|x]|].
Qed.

End Settles.

Lemma first_requests_singleton name : first_requests [name] = [name].
Proof.
  unfold first_requests. cbn. rewrite decide_False; [done|].
  apply not_elem_of_nil.
Qed.

Lemma own_keys_singleton name : own_keys [name] = [name].
Proof. apply Permutation_singleton_r, own_keys_Permutation. Qed.

(** ** A batch function that throws *)

Section Throws.
Variable f : BatchFn.




End Throws.

(** ** The loader's claims *)

(** C1 does not hold of every loader: a batch function that throws is
    invoked again by every call that resumes, twice here, for two calls with
    the same key. *)
Lemma throwing_batch_invoked_per_call :
  ¬ (∀ (f : BatchFn) options keys,
       length (batch_calls
                 (run (window keys) (new_world (constructor (Some f) options))))
       ≤ 1).
Proof.
  intros Hclaim.
  specialize (Hclaim throwing None [VNum (Int 1); VNum (Int 1)]).
  vm_compute in Hclaim. lia.
Qed.

(** C1, for batch functions that return a promise whatever the ids, and
    for [plain] keys: take a scheduling window opened at any point of the
    loader's life where no timer is pending, the keys requested before
    being [safe].  When it closes the batch
    function has been invoked at most once since the loader was built; every
    call of the window settles as the one query does, through the selection
    of a key with the same property name; and two calls of the window with
    the same key settle alike. *)
Theorem window_dedup StringToNumber (f : BatchFn) options es keys :
  (∀ ids, ∃ q, f ids = inr q) →
  Forall safe_event es → Forall plain keys →
  let w0 := run es (new_world (constructor (Some f) options)) in
  timers w0 = [] →
  let w := run (window keys) w0 in
  length (batch_calls w) ≤ 1
  ∧ ∀ i key, keys !! i = Some key →
      (∃ q key',
         queries w = [q]
         ∧ ToPropertyKey key' = ToPropertyKey key
         ∧ result StringToNumber w (length (calls w0) + i)
           = settle StringToNumber q key')
      ∧ ∀ j, keys !! j = Some key →
          result StringToNumber w (length (calls w0) + j)
          = result StringToNumber w (length (calls w0) + i).
Proof.
  intros Hf _ Hplain%plain_ordinary w0 Hts w. split.
  { unfold w, w0. rewrite <-run_app. by apply invoked_at_most_once. }
  assert (wf f w0) as Hw0 by apply wf_run, wf_new_world.
  destruct (window_spec f keys w0 Hplain Hw0 Hts)
    as (Hw & _ & _ & _ & _ & Hc & _); [by intros _|].
  fold w in Hw, Hc. intros i key Hi.
  destruct (Hc i key Hi) as (p & Hp & Hcase). split.
  - destruct (returned_settles StringToNumber f w _ _ _ Hw Hp)
      as (q & k' & Hq & _ & Hname & Hres).
    eauto.
  - intros j Hj. destruct (Hc j key Hj) as (p' & Hp' & Hcase').
    destruct (cached (promises (this w0)) key).
    + subst p p'. unfold result. by rewrite Hp, Hp'.
    + destruct Hcase as [_ Hth], Hcase' as [_ Hth'].
      destruct (returned_settles StringToNumber f w _ _ _ Hw Hp)
        as (q & _ & Hq & _).
      rewrite (result_returned StringToNumber w _ _ _ _ q Hp Hth Hq).
      by rewrite (result_returned StringToNumber w _ _ _ _ q Hp' Hth' Hq).
Qed.

Lemma window_dedup_witness :
  let w0 :=
    run [CallLoad (VNum (Int 1)); Fire]
      (new_world (constructor (Some users) None)) in
  let w := run (window [VNum (Int 2); VStr "2"; VNum (Int 1)]) w0 in
  length (batch_calls w) ≤ 1
  ∧ ∀ i key, [VNum (Int 2); VStr "2"; VNum (Int 1)] !! i = Some key →
      (∃ q key',
         queries w = [q]
         ∧ ToPropertyKey key' = ToPropertyKey key
         ∧ result decimal_StringToNumber w (length (calls w0) + i)
           = settle decimal_StringToNumber q key')
      ∧ ∀ j, [VNum (Int 2); VStr "2"; VNum (Int 1)] !! j = Some key →
          result decimal_StringToNumber w (length (calls w0) + j)
          = result decimal_StringToNumber w (length (calls w0) + i).
Proof.
  apply (window_dedup decimal_StringToNumber users None
           [CallLoad (VNum (Int 1)); Fire]
           [VNum (Int 2); VStr "2"; VNum (Int 1)]).
  - intros ids. eexists. reflexivity.
  - repeat constructor.
  - repeat constructor.
  - reflexivity.
Defined.

(** C2 does not hold: two keys in two ticks, and the batch function is
    invoked for the first only. *)
Lemma second_tick_starts_no_batch :
  ¬ (∀ (f : BatchFn) options key1 key2,
       ToPropertyKey key1 ≠ ToPropertyKey key2 →
       length (batch_calls
                 (run [CallLoad key1; Fire; CallLoad key2; Fire]
                    (new_world (constructor (Some f) options))))
       = 2).
Proof.
  intros Hclaim.
  specialize (Hclaim users None (VNum (Int 1)) (VNum (Int 2))).
  vm_compute in Hclaim. specialize (Hclaim ltac:(discriminate)).
  discriminate.
Qed.

(** C2, as the code has it, for [plain] keys: the window does not reset.
    When the first key's batch has been dispatched, a different key
    requested in a later tick gets an entry of its own in the same cache and
    joins the same active query: the batch function has been invoked once,
    with the first key only, the later call settles through the selection
    of its key from the first batch's result, and no further event brings
    another invocation. *)
Theorem later_key_joins_first_batch StringToNumber (f : BatchFn) options
    key1 key2 q :
  plain key1 → plain key2 →
  f [ToPropertyKey key1] = inr q →
  ToPropertyKey key1 ≠ ToPropertyKey key2 →
  let w := run [CallLoad key1; Fire; CallLoad key2; Fire]
             (new_world (constructor (Some f) options)) in
  batch_calls w = [[ToPropertyKey key1]]
  ∧ queries w = [q]
  ∧ activeQuery (this w) = Some 0
  ∧ Object_keys (promises (this w))
    = own_keys [ToPropertyKey key1; ToPropertyKey key2]
  ∧ result StringToNumber w 1 = settle StringToNumber q key2
  ∧ ∀ es, batch_calls (run es w) = [[ToPropertyKey key1]]
          ∧ activeQuery (this (run es w)) = Some 0.
Proof.
  intros [Hk1 _] [Hk2 _] Hq Hne. cbn zeta.
  change [CallLoad key1; Fire; CallLoad key2; Fire]
    with (window [key1] ++ window [key2]).
  rewrite run_app.
  destruct (first_window StringToNumber f options [key1] q)
    as (Hw1 & Hts1 & Hlen & Haq1 & Hqs1 & Hbs1 & Hns1 & _);
    [by repeat constructor | done | |].
  { cbn [fmap list_fmap].
    by rewrite first_requests_singleton, own_keys_singleton. }
  cbn [fmap list_fmap] in Hbs1, Hns1.
  rewrite first_requests_singleton in Hbs1, Hns1.
  rewrite own_keys_singleton in Hbs1.
  set (w1 := run (window [key1]) _) in *.
  destruct (window_spec f [key2] w1 ltac:(by repeat constructor) Hw1 Hts1)
    as (Hw & _ & _ & Hns & _ & Hc & _ & Hb).
  { intros Hnone. by rewrite Haq1 in Hnone. }
  rewrite Haq1 in Hb. destruct Hb as [Hqs Hbs].
  set (w := run (window [key2]) w1) in *.
  assert (cached (promises (this w1)) key2 = None) as Hca.
  { unfold cached.
    rewrite (proj2 (get_None _ _)); [done|].
    rewrite Hns1, list_elem_of_singleton. congruence. }
  destruct (dispatched_stays (window [key2]) w1 0 Haq1) as (Haq & _ & _).
  fold w in Haq.
  split_and!.
  - by rewrite Hbs.
  - by rewrite Hqs.
  - done.
  - unfold Object_keys. rewrite Hns, Hns1. cbn [fmap list_fmap distinct_from].
    rewrite decide_False; [done|].
    rewrite list_elem_of_singleton. congruence.
  - destruct (Hc 0 key2) as (p & Hp & Hcase); [done|].
    rewrite Hca in Hcase. destruct Hcase as [_ Hth].
    rewrite Hlen in Hp. change (length [key1] + 0) with 1 in Hp.
    apply (result_returned StringToNumber w 1 key2 p key2 q); congruence.
  - intros es. destruct (dispatched_stays es w 0 Haq) as (-> & _ & ->).
    by rewrite Hbs.
Qed.

Lemma later_key_joins_first_batch_witness :
  let w := run [CallLoad (VNum (Int 1)); Fire; CallLoad (VNum (Int 2)); Fire]
             (new_world (constructor (Some users) None)) in
  batch_calls w = [["1"]]
  ∧ queries w = [Fulfils [Item (VNum (Int 1)) [("name", VStr "user 1")]]]
  ∧ activeQuery (this w) = Some 0
  ∧ Object_keys (promises (this w)) = ["1"; "2"]
  ∧ result decimal_StringToNumber w 1
    = settle decimal_StringToNumber
        (Fulfils [Item (VNum (Int 1)) [("name", VStr "user 1")]])
        (VNum (Int 2))
  ∧ ∀ es, batch_calls (run es w) = [["1"]]
          ∧ activeQuery (this (run es w)) = Some 0.
Proof.
  apply (later_key_joins_first_batch decimal_StringToNumber users None
           (VNum (Int 1)) (VNum (Int 2))).
  - by split.
  - by split.
  - reflexivity.
  - discriminate.
Defined.

(** C3 does not hold: for the keys [2] then [1] the batch function receives
    the names of [1] and [2] in that order, not in order of first request. *)
Lemma batch_keys_not_in_request_order :
  ¬ (∀ (f : BatchFn) options keys,
       batch_calls (run (window keys) (new_world (constructor (Some f) options)))
       = [first_requests (ToPropertyKey <$> keys)]).
Proof.
  intros Hclaim.
  specialize (Hclaim users None [VNum (Int 2); VNum (Int 1)]).
  vm_compute in Hclaim. discriminate.
Qed.

(** C3, with the order of [Object.keys]: in the first window of a new
    loader, with at least one call, [plain] keys and a batch function that
    returns a promise for the ids, the batch function is invoked exactly
    once.  It receives the distinct property names of the requested keys,
    each once, in the order of [Object.keys]: the names that are array
    indices first, in ascending numeric order, then the other names in
    order of first request. *)
Theorem window_batches_once (f : BatchFn) options keys q :
  keys ≠ [] →
  Forall plain keys →
  f (own_keys (first_requests (ToPropertyKey <$> keys))) = inr q →
  let names := first_requests (ToPropertyKey <$> keys) in
  ∃ ids,
    batch_calls (run (window keys) (new_world (constructor (Some f) options)))
    = [ids]
    ∧ ids ≡ₚ names
    ∧ StronglySorted N.le (omap array_index ids)
    ∧ filter (λ name, array_index name = None) ids
      = filter (λ name, array_index name = None) names
    ∧ ∀ i j a b,
        ids !! i = Some a → ids !! j = Some b →
        is_Some (array_index a) → array_index b = None → i < j.
Proof.
  intros Hne Hplain%plain_ordinary Hq names.
  destruct (first_window decimal_StringToNumber f options keys q Hplain Hne Hq)
    as (_ & _ & _ & _ & _ & Hbs & _).
  exists (own_keys names). split_and!.
  - done.
  - apply own_keys_Permutation.
  - apply own_keys_ascending.
  - apply own_keys_others.
  - apply own_keys_indices_first.
Qed.

Lemma window_batches_once_witness :
  let keys := [VStr "b"; VNum (Int 10); VStr "a"; VNum (Int 2); VStr "b"] in
  let names := first_requests (ToPropertyKey <$> keys) in
  ∃ ids,
    batch_calls
      (run (window keys) (new_world (constructor (Some users) None)))
    = [ids]
    ∧ ids ≡ₚ names
    ∧ StronglySorted N.le (omap array_index ids)
    ∧ filter (λ name, array_index name = None) ids
      = filter (λ name, array_index name = None) names
    ∧ ∀ i j a b,
        ids !! i = Some a → ids !! j = Some b →
        is_Some (array_index a) → array_index b = None → i < j.
Proof.
  eapply (window_batches_once users None
            [VStr "b"; VNum (Int 10); VStr "a"; VNum (Int 2); VStr "b"]).
  - discriminate.
  - repeat constructor.
  - reflexivity.
Defined.

(** The article's request: the authors of ten posts, seven of them
    distinct, are fetched by one call with the seven ids. *)
Example article_batch (f : BatchFn) options q :
  f ["1"; "2"; "4"; "5"; "6"; "10"; "18"] = inr q →
  batch_calls
    (run (window ((λ z, VNum (Int z)) <$> [1; 1; 2; 2; 4; 4; 5; 6; 10; 18]%Z))
       (new_world (constructor (Some f) options)))
  = [["1"; "2"; "4"; "5"; "6"; "10"; "18"]].
Proof.
  intros Hq.
  destruct (first_window decimal_StringToNumber f options
              ((λ z, VNum (Int z)) <$> [1; 1; 2; 2; 4; 4; 5; 6; 10; 18]%Z)
              q)
    as (_ & _ & _ & _ & _ & Hbs & _); [|done..].
  cbn. by repeat constructor.
Qed.








(** The other branch, for the record: under a [null] placeholder the call
    writes the placeholder again and arms a timer, like a call for a key
    never seen. *)
Lemma load_placeholder_schedules_again (w : World) key :
  get (promises (this w)) (ToPropertyKey key) = Some ENull →
  (promises (this (load key w))).*1 = (promises (this w)).*1
  ∧ length (timers (load key w)) = S (length (timers w))
  ∧ calls (load key w) = calls w ++ [(key, None)].
Proof.
  intros Hget.
  assert (member (promises (this w)) key = None) as Hm
    by (unfold member; by rewrite Hget).
  rewrite load_promises, load_timers, load_calls by done. unfold cached.
  rewrite Hget. split_and!; [|by rewrite length_app, Nat.add_1_r|done].
  apply set_names_known, get_is_Some. by rewrite Hget.
Qed.





(** Two keys of a window that share a property name share the entry of the
    cache: the keys [true] and ["true"] are both stored under the name of
    the latter.  The call for [true] selects the row whose [id] is [1], the
    call for ["true"] selects nothing and its promise is the one left in the
    cache, so a later call for [true] obtains [undefined]. *)
Lemma stored_value_is_the_last_of_the_name :
  ¬ (∀ (f : BatchFn) options keys items i key,
       f (own_keys (first_requests (ToPropertyKey <$> keys)))
       = inr (Fulfils items) →
       keys !! i = Some key →
       let w := run (window keys) (new_world (constructor (Some f) options)) in
       result decimal_StringToNumber (load key w) (length keys)
       = result decimal_StringToNumber w i).
Proof.
  intros Hclaim.
  specialize (Hclaim all_users None [VBool true; VStr "true"] users_table
                0 (VBool true) eq_refl eq_refl).
  vm_compute in Hclaim. discriminate.
Qed.

(** Inside the window nothing is stored yet: a second call with the same key
    is left waiting on a timer of its own. *)
Lemma same_window_call_waits :
  ¬ (∀ (f : BatchFn) options key,
       let w := load key (load key (new_world (constructor (Some f) options))) in
       ∃ p, calls w !! 1 = Some (key, Some (Return p))).
Proof.
  intros Hclaim. destruct (Hclaim users None (VNum (Int 1))) as [p Hp].
  vm_compute in Hp. discriminate.
Qed.



(** C8, at [new DataLoader().load(key)] for a [plain] key: the constructor
    has stored [undefined] in the own property [batchFn], which hides the
    prototype's method, so the call is rejected with a [TypeError] when its
    timer fires; the error of the unimplemented default is never raised,
    and that default is never invoked. *)
Theorem missing_batchFn_is_a_TypeError StringToNumber options key :
  plain key →
  let loader := constructor None options in
  let w := run (window [key]) (new_world loader) in
  this_batchFn loader = None
  ∧ result StringToNumber w 0
    = Rejected (TypeError "this.batchFn is not a function")
  ∧ result StringToNumber w 0 ≠ Rejected (Error "Not implemented")
  ∧ batch_calls w = [].
Proof.
  intros [Hord _]. unfold ordinary in Hord. cbn.
  unfold load, load_enter. cbn. rewrite Hord. cbn. by split_and!.
Qed.

Lemma missing_batchFn_is_a_TypeError_witness :
  let loader := constructor None None in
  let w := run (window [VNum (Int 1)]) (new_world loader) in
  this_batchFn loader = None
  ∧ result decimal_StringToNumber w 0
    = Rejected (TypeError "this.batchFn is not a function")
  ∧ result decimal_StringToNumber w 0 ≠ Rejected (Error "Not implemented")
  ∧ batch_calls w = [].
Proof.
  apply (missing_batchFn_is_a_TypeError decimal_StringToNumber None
           (VNum (Int 1))).
  by split.
Defined.

(** What the default would have done, had the constructor left it in
    place. *)
Lemma prototype_batchFn_throws StringToNumber options key :
  ordinary key →
  let loader :=
    {| own_batchFn := None;
       own_schedulingFn := own_schedulingFn (constructor None options);
       promises := []; activeQuery := None |} in
  result StringToNumber (run (window [key]) (new_world loader)) 0
  = Rejected (Error "Not implemented").
Proof.
  intros Hord. unfold ordinary in Hord. cbn.
  unfold load, load_enter. cbn. by rewrite Hord.
Qed.

(** C9 does not hold of every key that is stored as a string that is not
    numeric: [true] is stored as ["true"], yet [Number(true)] is [1] and the
    call is fulfilled with the row whose [id] is [1]. *)
Lemma boolean_key_selects_a_row :
  ¬ (∀ (f : BatchFn) options key items,
       f [ToPropertyKey key] = inr (Fulfils items) →
       decimal_StringToNumber (ToPropertyKey key) = NaN →
       result decimal_StringToNumber
         (run (window [key]) (new_world (constructor (Some f) options))) 0
       = Fulfilled None).
Proof.
  intros Hclaim.
  specialize (Hclaim all_users None (VBool true) users_table eq_refl eq_refl).
  vm_compute in Hclaim. discriminate.
Qed.

(** C9, with [Number(key)] in the place of the key's string: in the first
    window of a new loader with [plain] keys whose query is fulfilled with
    [items], every key is registered in the cache under its property name, a
    string; the batch function receives those names, each once; and the
    call for a key is fulfilled with the first item whose [id] is strictly
    equal to [Number(key)].  Hence the call is fulfilled with [undefined]
    when [Number(key)] is [NaN], and when no item has the number
    [Number(key)] as its [id]. *)
Theorem keys_are_names_and_ids_are_numbers StringToNumber (f : BatchFn)
    options keys items i key :
  Forall plain keys →
  f (own_keys (first_requests (ToPropertyKey <$> keys))) = inr (Fulfils items) →
  keys !! i = Some key →
  let w := run (window keys) (new_world (constructor (Some f) options)) in
  ToPropertyKey key ∈ Object_keys (promises (this w))
  ∧ (∃ ids, batch_calls w = [ids]
            ∧ ids ≡ₚ first_requests (ToPropertyKey <$> keys)
            ∧ ToPropertyKey key ∈ ids)
  ∧ result StringToNumber w i
    = Fulfilled
        (List.find (λ it, strict_equals (id it) (Number StringToNumber key))
           items)
  ∧ (Number StringToNumber key = NaN →
     result StringToNumber w i = Fulfilled None)
  ∧ ((∀ it, it ∈ items → id it ≠ VNum (Number StringToNumber key)) →
     result StringToNumber w i = Fulfilled None).
Proof.
  intros Hplain%plain_ordinary Hq Hi.
  destruct (first_window StringToNumber f options keys (Fulfils items))
    as (_ & _ & _ & _ & _ & Hbs & Hns & Hres & _);
    [done | by intros -> | done |].
  cbn zeta. set (w := run (window keys) _) in *.
  assert (ToPropertyKey key ∈ first_requests (ToPropertyKey <$> keys)) as Hin.
  { apply first_requests_elem_of, list_elem_of_fmap_2.
    by eapply list_elem_of_lookup_2. }
  split_and!.
  - unfold Object_keys. by rewrite own_keys_Permutation, Hns.
  - eexists. split; [done|]. split; [apply own_keys_Permutation|].
    by rewrite own_keys_Permutation.
  - by rewrite (Hres i key Hi).
  - intros Hnan. rewrite (Hres i key Hi). cbn. by rewrite select_NaN.
  - intros Hno. rewrite (Hres i key Hi). cbn. rewrite select_None; [done|].
    intros it Hit. specialize (Hno it Hit).
    unfold strict_equals, number_strict_equals.
    destruct (id it) as [| | |[|x]|]; try done.
    destruct (Number StringToNumber key) as [|y]; [done|].
    apply bool_decide_eq_false. congruence.
Qed.

Lemma keys_are_names_and_ids_are_numbers_witness :
  let keys := [VNum (Int 5); VStr "abc"; VStr "6"] in
  let items := [Item (VNum (Int 5)) [("name", VStr "user 5")];
                Item (VNum (Int 6)) [("name", VStr "user 6")]] in
  let key := VStr "abc" in
  let w := run (window keys) (new_world (constructor (Some users) None)) in
  ToPropertyKey key ∈ Object_keys (promises (this w))
  ∧ (∃ ids, batch_calls w = [ids]
            ∧ ids ≡ₚ first_requests (ToPropertyKey <$> keys)
            ∧ ToPropertyKey key ∈ ids)
  ∧ result decimal_StringToNumber w 1
    = Fulfilled
        (List.find
           (λ it, strict_equals (id it) (Number decimal_StringToNumber key))
           items)
  ∧ (Number decimal_StringToNumber key = NaN →
     result decimal_StringToNumber w 1 = Fulfilled None)
  ∧ ((∀ it, it ∈ items → id it ≠ VNum (Number decimal_StringToNumber key)) →
     result decimal_StringToNumber w 1 = Fulfilled None).
Proof.
  apply (keys_are_names_and_ids_are_numbers decimal_StringToNumber users None
           [VNum (Int 5); VStr "abc"; VStr "6"]
           [Item (VNum (Int 5)) [("name", VStr "user 5")];
            Item (VNum (Int 6)) [("name", VStr "user 6")]]
           1 (VStr "abc")).
  - repeat constructor.
  - reflexivity.
  - reflexivity.
Defined.

(** ** The MDX component map *)

(** C10: the component registered for [del] renders an [ins] element, never
    a [del] element, whatever props it is given; its class is the blue
    background class written in the source unless the props bring a
    [className] of their own, which the spread puts in its place. *)
Theorem del_renders_ins :
  ∃ del,
    component "del" = Some del
    ∧ ∀ props : gmap string prop,
        tag (del props) = "ins"
        ∧ tag (del props) ≠ "del"
        ∧ element_props (del props) !! "className"
          = Some (default (PStr "block px-4 -mx-4 bg-blue-800")
                    (props !! "className")).
Proof.
  eexists. split; [reflexivity|].
  intros props. cbn [tag element_props jsx]. split; [reflexivity|].
  split; [discriminate|].
  rewrite !lookup_delete_ne, lookup_union by done.
  destruct (props !! "className") as [c|]; reflexivity.
Qed.

(** * Further properties *)

(** ** What a firing does, for every loader *)

(** The call resumed by a timer, when [this.batchFn] is [undefined]: the
    line is logged, then the call of [undefined] throws. *)
Lemma fire_undefined w t ts :
  timers w = t :: ts → activeQuery (this w) = None →
  this_batchFn (this w) = None →
  fire w
  = with_calls
      (alter (λ c, (c.1, Some (Throw (TypeError "this.batchFn is not a function"))))
         (call_index (timer_call t)) (calls w))
      (with_console
         (console w
          ++ ["SELECT * from users WHERE id in ("
              +:+ join "," (Object_keys (promises (this w)))
              +:+ ")"])
         (with_timers ts w)).
Proof.
  intros Ht Hq Hf. unfold fire, load_resume, dispatch. rewrite Ht. cbn.
  rewrite Hq. cbn. unfold this_batchFn in *. cbn. by rewrite Hf.
Qed.

Lemma fire_fired w t : fired w t (fire w).
Proof.
  destruct (activeQuery (this w)) as [q|] eqn:Hq; [by eapply fired_joins|].
  destruct (this_batchFn (this w)) as [f|] eqn:Hf;
    [|by apply fired_undefined].
  destruct (f (Object_keys (promises (this w)))) as [e|q] eqn:Hids.
  - by eapply fired_throws.
  - by eapply fired_dispatches.
Qed.

(** What every firing does, whatever the loader: the oldest timer is
    removed, its call completes, and nothing else happens to the calls; the
    cache changes at the name of the call's key at most, where a promise is
    stored. *)
Lemma fire_effect w t ts :
  timers w = t :: ts →
  timers (fire w) = ts
  ∧ (∃ r, calls (fire w)
          = alter (λ c, (c.1, Some r)) (call_index (timer_call t)) (calls w))
  ∧ (promises (this (fire w)) = promises (this w)
     ∨ (∃ p, promises (this (fire w))
             = set (promises (this w)) (ToPropertyKey (call_key (timer_call t)))
                 (EPromise p)))
  ∧ own_batchFn (this (fire w)) = own_batchFn (this w)
  ∧ own_schedulingFn (this (fire w)) = own_schedulingFn (this w).
Proof.
  intros Hts. destruct (fire_fired w t) as [q Hq|f q Hq Hf Hids|f e Hq Hf Hids|Hq Hf].
  - rewrite (fire_joins _ _ _ _ Hts Hq). cbn. eauto 10.
  - rewrite (fire_dispatches _ _ _ _ _ Hts Hq Hf Hids). cbn. eauto 10.
  - rewrite (fire_throws _ _ _ _ _ Hts Hq Hf Hids). cbn. eauto 10.
  - rewrite (fire_undefined _ _ _ Hts Hq Hf). cbn. eauto 10.
Qed.

Lemma fires_timers n w :
  timers (run (replicate n Fire) w) = drop n (timers w)
  ∧ length (calls (run (replicate n Fire) w)) = length (calls w).
Proof.
  revert w. induction n as [|n IH]; intros w; [by rewrite drop_0|].
  cbn [replicate run foldl step]. fold (run (replicate n Fire) (fire w)).
  destruct (IH (fire w)) as [-> ->].
  destruct (timers w) as [|t ts] eqn:Hts.
  - by rewrite fire_idle, Hts, !drop_nil.
  - destruct (fire_effect w t ts Hts) as (-> & [r ->] & _).
    by rewrite length_alter.
Qed.

(** ** No call is left waiting *)

Lemma waiting_load key w :
  waiting_calls_have_timers w → waiting_calls_have_timers (load key w).
Proof.
  intros Hw c k.
  destruct (member (promises (this w)) key) as [m|] eqn:Hm.
  { rewrite (load_member _ _ _ Hm). cbn. rewrite lookup_snoc_Some.
    intros [[_ Hc]|[_ Hc]]; [by eapply Hw|done]. }
  rewrite load_calls, load_timers, fmap_app, elem_of_app by done.
  rewrite lookup_snoc_Some. intros [[_ Hc]|[-> Hc]]; [left; by eapply Hw|].
  right. destruct (cached _ key); [done|]. apply list_elem_of_here.
Qed.

(** Each call of [load] is one more call and at most one more timer. *)
Lemma loads_counts keys :
  ∀ w, length (calls (run (CallLoad <$> keys) w)) = length (calls w) + length keys
       ∧ length (timers (run (CallLoad <$> keys) w))
         ≤ length (timers w) + length keys.
Proof.
  induction keys as [|key keys IH]; intros w; [cbn; lia|].
  cbn [fmap list_fmap run foldl step length].
  fold (run (CallLoad <$> keys) (load key w)).
  destruct (IH (load key w)) as [Hc Ht]. rewrite Hc.
  destruct (member (promises (this w)) key) as [m|] eqn:Hm.
  - rewrite (load_member _ _ _ Hm) in Ht |- *. cbn in *.
    rewrite length_app. cbn. lia.
  - rewrite (load_timers _ _ Hm) in Ht. rewrite (load_calls _ _ Hm).
    rewrite !length_app in *. cbn in *.
    destruct (cached _ key); cbn in *; lia.
Qed.

Lemma waiting_fire w :
  waiting_calls_have_timers w → waiting_calls_have_timers (fire w).
Proof.
  intros Hw. destruct (timers w) as [|t ts] eqn:Hts; [by rewrite fire_idle|].
  destruct (fire_effect w t ts Hts) as (Hts' & [r Hcs] & _).
  intros c k. rewrite Hts', Hcs, list_lookup_alter. case_decide as Hidx.
  - destruct (calls w !! _) as [[??]|]; done.
  - intros Hc. specialize (Hw c k Hc). rewrite Hts, fmap_cons in Hw.
    apply elem_of_cons in Hw as [Heq|Hin]; [|done].
    cbn in Heq. congruence.
Qed.

Lemma waiting_run es w :
  waiting_calls_have_timers w → waiting_calls_have_timers (run es w).
Proof.
  revert w. induction es as [|[key|] es IH]; intros w Hw; [done| |];
    apply IH; [by apply waiting_load | by apply waiting_fire].
Qed.

(** X1: a window opened when no timer is pending leaves no call waiting,
    whatever the loader is and whatever its batch function does: when the
    firings are over no timer is pending, the window has added one call per
    key, and every call the loader ever received has completed, by a return
    or by a throw. *)
Theorem window_leaves_no_call_waiting (loader : DataLoader) es keys :
  let w0 := run es (new_world loader) in
  timers w0 = [] →
  let w := run (window keys) w0 in
  timers w = []
  ∧ length (calls w) = length (calls w0) + length keys
  ∧ ∀ c k o, calls w !! c = Some (k, o) → is_Some o.
Proof.
  intros w0 Hts0 w.
  assert (waiting_calls_have_timers w) as Hw.
  { apply waiting_run, waiting_run. intros c k Hc. by destruct c. }
  unfold w, window in *. rewrite run_app in *.
  destruct (loads_counts keys w0) as [Hcs Hts].
  set (w1 := run (CallLoad <$> keys) w0) in *.
  destruct (fires_timers (length keys) w1) as [Hts2 Hlen2].
  set (w2 := run (replicate (length keys) Fire) w1) in *.
  assert (timers w2 = []) as Hnil.
  { rewrite Hts2. apply drop_ge. rewrite Hts0 in Hts. cbn in Hts. lia. }
  split_and!.
  - done.
  - by rewrite Hlen2, Hcs.
  - intros c k [r|] Hc; [by eexists|].
    specialize (Hw c k Hc). rewrite Hnil in Hw. by apply elem_of_nil in Hw.
Qed.

Lemma window_leaves_no_call_waiting_witness :
  let w0 := run [CallLoad (VNum (Int 1)); Fire]
              (new_world (constructor (Some throwing) None)) in
  let w := run (window [VNum (Int 2); VNum (Int 1)]) w0 in
  timers w = []
  ∧ length (calls w) = length (calls w0) + 2
  ∧ ∀ c k o, calls w !! c = Some (k, o) → is_Some o.
Proof.
  apply (window_leaves_no_call_waiting (constructor (Some throwing) None)
           [CallLoad (VNum (Int 1)); Fire] [VNum (Int 2); VNum (Int 1)]).
  reflexivity.
Defined.

(** ** The cache only grows *)

Lemma step_cache_grows w e :
  (promises (this w)).*1 `prefix_of` (promises (this (step w e))).*1
  ∧ ∀ name p, get (promises (this w)) name = Some (EPromise p) →
      ∃ p', get (promises (this (step w e))) name = Some (EPromise p').
Proof.
  assert (∀ (o : object entry) name v,
            o.*1 `prefix_of` (set o name v).*1) as Hset.
  { intros o name v. rewrite set_names. case_decide; [done|].
    by apply prefix_app_r. }
  destruct e as [key|]; cbn [step].
  - destruct (member (promises (this w)) key) as [m|] eqn:Hm.
    { rewrite (load_member _ _ _ Hm). cbn. eauto. }
    rewrite load_promises by done. destruct (cached _ key) eqn:Hca; [eauto|].
    split; [apply Hset|]. intros name p Hget.
    destruct (decide (ToPropertyKey key = name)) as [<-|Hne].
    + apply cached_Some in Hget. congruence.
    + rewrite get_set_ne by done. eauto.
  - destruct (timers w) as [|t ts] eqn:Hts; [rewrite fire_idle by done; eauto|].
    destruct (fire_effect w t ts Hts) as (_ & _ & [->|[p' ->]] & _); [eauto|].
    split; [apply Hset|]. intros name p Hget.
    destruct (decide (ToPropertyKey (call_key (timer_call t)) = name))
      as [<-|Hne].
    + rewrite get_set_eq. eauto.
    + rewrite get_set_ne by done. eauto.
Qed.

(** Of two sorted lists of numbers, one holding the elements of the other
    at least, the smaller is a sublist of the larger. *)
Lemma sorted_sublist (l2 : list N) : ∀ l1,
  StronglySorted N.le l1 → StronglySorted N.le l2 → l1 ⊆+ l2 →
  l1 `sublist_of` l2.
Proof.
  induction l2 as [|y l2 IH]; intros l1 Hs1 Hs2 Hsub.
  { apply submseteq_nil_r in Hsub as ->. constructor. }
  destruct l1 as [|x l1]; [apply sublist_nil_l|].
  apply StronglySorted_inv in Hs1 as [Hs1 Hx].
  apply StronglySorted_inv in Hs2 as [Hs2 Hy].
  destruct (decide (x = y)) as [->|Hne].
  - apply sublist_skip, IH; [done..|].
    by apply (submseteq_app_inv_l _ _ [y]).
  - apply sublist_cons, IH; [by constructor|done|].
    apply submseteq_cons_r in Hsub as [Hsub|(l' & Hperm & Hsub)]; [done|].
    exfalso. apply Hne.
    assert (y ∈ x :: l1) as Hyin by (rewrite Hperm; apply list_elem_of_here).
    assert (x ∈ y :: l2) as Hxin.
    { assert (x ∈ y :: l') as Hin'
        by (rewrite <-Hperm; apply list_elem_of_here).
      apply elem_of_cons in Hin' as [->|Hin']; [apply list_elem_of_here|].
      apply list_elem_of_further. by eapply elem_of_submseteq. }
    apply elem_of_cons in Hyin as [->|Hyin]; [done|].
    apply elem_of_cons in Hxin as [->|Hxin]; [done|].
    apply N.le_antisymm.
    + by apply (proj1 (Forall_forall _ _) Hx).
    + by apply (proj1 (Forall_forall _ _) Hy).
Qed.

(** Names that come later do not move the names [Object.keys] already
    gave. *)
Lemma own_keys_sublist names names' :
  names `prefix_of` names' → own_keys names `sublist_of` own_keys names'.
Proof.
  intros [extra ->]. unfold own_keys. apply sublist_app.
  - apply fmap_sublist, sorted_sublist.
    + apply (StronglySorted_merge_sort N.le).
    + apply (StronglySorted_merge_sort N.le).
    + rewrite !merge_sort_Permutation, omap_app.
      by apply submseteq_inserts_r.
  - rewrite filter_app. by apply sublist_inserts_r.
Qed.

(** X2: nothing is ever removed from the cache of a loader: whatever the
    calls and firings, [Object.keys(this.promises)] keeps every name it
    gave, in the same relative order, the names that come later taking
    their place among them; and a name under which a promise is stored
    holds a promise for ever, never again the placeholder. *)
Theorem cache_only_grows es (w : World) :
  Object_keys (promises (this w))
    `sublist_of` Object_keys (promises (this (run es w)))
  ∧ ∀ name p, get (promises (this w)) name = Some (EPromise p) →
      ∃ p', get (promises (this (run es w))) name = Some (EPromise p').
Proof.
  assert ((promises (this w)).*1 `prefix_of` (promises (this (run es w))).*1
          ∧ ∀ name p, get (promises (this w)) name = Some (EPromise p) →
              ∃ p', get (promises (this (run es w))) name
                    = Some (EPromise p')) as [Hpre Hprom].
  { revert w. induction es as [|e es IH]; intros w; [eauto|].
    cbn [run foldl]. fold (run es (step w e)).
    destruct (step_cache_grows w e) as [Hpre Hprom].
    destruct (IH (step w e)) as [Hpre' Hprom']. split.
    - by etrans.
    - intros name p Hget. destruct (Hprom name p Hget) as [p' Hp']. eauto. }
  split; [|done]. by apply own_keys_sublist.
Qed.

(** ** At most one query *)

Lemma single_query_step w e : single_query w → single_query (step w e).
Proof.
  unfold single_query. intros Hw. destruct e as [key|]; cbn [step].
  - destruct (load_frame key w) as (-> & _ & -> & -> & _). done.
  - destruct (timers w) as [|t ts] eqn:Hts; [by rewrite fire_idle|].
    destruct (fire_fired w t) as [q Hq|f q Hq Hf Hids|f e Hq Hf Hids|Hq Hf];
      rewrite Hq in Hw.
    + rewrite (fire_joins _ _ _ _ Hts Hq). cbn. rewrite Hq.
      destruct Hw as (-> & Hlen & Hth). split_and!; try done.
      intros p q' k. rewrite lookup_snoc_Some.
      intros [[_ Hp]|[_ [= <- _]]]; [by eapply Hth | done].
    + rewrite (fire_dispatches _ _ _ _ _ Hts Hq Hf Hids). cbn.
      destruct Hw as [-> ->]. split_and!; try done.
      intros p q' k Hp. apply list_elem_of_lookup_2 in Hp.
      apply list_elem_of_singleton in Hp. by injection Hp as -> _.
    + rewrite (fire_throws _ _ _ _ _ Hts Hq Hf Hids). cbn. by rewrite Hq.
    + rewrite (fire_undefined _ _ _ Hts Hq Hf). cbn. by rewrite Hq.
Qed.

Lemma single_query_run es w : single_query w → single_query (run es w).
Proof.
  revert w. induction es as [|e es IH]; intros w Hw; [done|].
  by apply IH, single_query_step.
Qed.

(** X3: a loader has at most one query in its whole life, whatever its
    batch function is (or is not) and however often it is invoked: there is
    a query exactly when [this.activeQuery] is set, every promise made by
    [then] waits on that query, and once it is there no later call or firing
    replaces it or adds another. *)
Theorem at_most_one_query (batchFn : option BatchFn) options es :
  let w := run es (new_world (constructor batchFn options)) in
  length (queries w) ≤ 1
  ∧ (activeQuery (this w) = None ↔ queries w = [])
  ∧ (∀ p q k, thens w !! p = Some (q, k) → q = 0 ∧ is_Some (queries w !! 0))
  ∧ ∀ es', queries w ≠ [] → queries (run es' w) = queries w.
Proof.
  intros w.
  assert (single_query w) as Hw by by apply single_query_run.
  unfold single_query in Hw.
  destruct (activeQuery (this w)) as [q|] eqn:Hq.
  - destruct Hw as (-> & Hlen & Hth). split_and!.
    + lia.
    + split; [done|]. intros Hnil. by rewrite Hnil in Hlen.
    + intros p q k Hp. split; [by eapply Hth|].
      apply lookup_lt_is_Some. lia.
    + intros es' _. by destruct (dispatched_stays es' w 0 Hq) as (_ & -> & _).
  - destruct Hw as [Hqs Hth]. split_and!.
    + rewrite Hqs. cbn. lia.
    + done.
    + intros p q k Hp. by rewrite Hth in Hp.
    + intros es' Hne. by rewrite Hqs in Hne.
Qed.

(** ** Calls that have completed *)


(** ** A loader without a batch function *)

Lemma never_dispatched_step w e :
  never_dispatched w → never_dispatched (step w e).
Proof.
  intros Hw. pose proof Hw as (Hf & Haq & Hqs & Hths & Hbc & He & Ht & Hc).
  assert (∀ k, cached (promises (this w)) k = None) as Hca.
  { intros k. unfold cached.
    destruct (get _ _) as [en|] eqn:Hg; [|done].
    by destruct (He _ _ Hg) as [-> _]. }
  destruct e as [key|]; cbn [step].
  - destruct (member (promises (this w)) key) as [m|] eqn:Hm.
    { rewrite (load_member _ _ _ Hm).
      apply member_Some in Hm as (-> & Hin & _).
      unfold never_dispatched. cbn. split_and!; try done.
      - intros t Hin'. destruct (Ht t Hin') as (k & o & Hl & Hk).
        exists k, o. split; [by apply lookup_app_l_Some|done].
      - intros c k o. rewrite lookup_snoc_Some.
        intros [[_ Hl]|[_ [= <- <-]]]; [by eapply Hc|]. by rewrite Hin. }
    assert (inherited (ToPropertyKey key) = false) as Hkey.
    { unfold member in Hm.
      destruct (get _ (ToPropertyKey key)) as [en|] eqn:Hg.
      - by destruct (He _ _ Hg).
      - by destruct (inherited _). }
    destruct (load_frame key w) as (E1 & E2 & E3 & E4 & E5 & _).
    unfold never_dispatched. rewrite E1, E2, E3, E4, E5.
    rewrite load_promises, load_calls, load_timers, Hca by done.
    split_and!; try done.
    + intros name en.
      destruct (decide (ToPropertyKey key = name)) as [<-|Hne].
      * rewrite get_set_eq. by intros [= <-].
      * rewrite get_set_ne by done. apply He.
    + intros t [Hin|Hin]%elem_of_app.
      * destruct (Ht t Hin) as (k & o & Hl & Hk).
        exists k, o. split; [by apply lookup_app_l_Some|done].
      * apply list_elem_of_singleton in Hin as ->.
        exists key, None. cbn.
        by rewrite lookup_app_r, Nat.sub_diag by lia.
    + intros c k o. rewrite lookup_snoc_Some.
      intros [[_ Hl]|[_ [= <- <-]]]; [by eapply Hc|].
      rewrite Hkey. by left.
  - destruct (timers w) as [|t ts] eqn:Hts; [by rewrite fire_idle|].
    rewrite (fire_undefined _ _ _ Hts Haq Hf).
    destruct (Ht t) as (kt & ot & Hlt & Hkt); [apply list_elem_of_here|].
    unfold never_dispatched. cbn. split_and!; try done.
    + intros t' Hin.
      destruct (Ht t') as (k & o & Hl & Hk); [by apply list_elem_of_further|].
      destruct (decide (call_index (timer_call t) = call_index (timer_call t')))
        as [Hidx|Hidx].
      * exists k, (Some (Throw (TypeError "this.batchFn is not a function"))).
        split; [|done]. by rewrite <-Hidx, list_lookup_alter_eq, Hidx, Hl.
      * exists k, o. split; [|done]. by rewrite list_lookup_alter_ne.
    + intros c k o. rewrite list_lookup_alter. case_decide as Hidx.
      * subst c. rewrite Hlt. cbn. intros [= <- <-]. rewrite Hkt. by right.
      * apply Hc.
Qed.

Lemma never_dispatched_run es :
  ∀ w, never_dispatched w → never_dispatched (run es w).
Proof.
  induction es as [|e es IH]; intros w Hw; [done|].
  apply IH, never_dispatched_step, Hw.
Qed.

(** X5: a loader constructed without a batch function never gets anywhere,
    whatever is requested and whenever the timers fire: the default method
    of the class is never reached and no query is ever made, and the cache
    never holds anything but placeholders, so that no call is ever answered
    from it.  A call whose key names a member of [Object.prototype] is
    fulfilled with that member; every other call waits for its timer or has
    been rejected with the TypeError of calling [undefined]. *)
Theorem loader_without_batchFn_never_answers
    (StringToNumber : string → number)
    (options : option Options) (es : list event) :
  let w := run es (new_world (constructor None options)) in
  batch_calls w = [] ∧ queries w = [] ∧ activeQuery (this w) = None
  ∧ (∀ key, cached (promises (this w)) key = None)
  ∧ (∀ c k o, calls w !! c = Some (k, o) →
       if inherited (ToPropertyKey k)
       then result StringToNumber w c = FulfilledMember (ToPropertyKey k)
       else result StringToNumber w c = Pending
            ∨ result StringToNumber w c
              = Rejected (TypeError "this.batchFn is not a function")).
Proof.
  intros w.
  assert (never_dispatched w) as (Hf & Haq & Hqs & Hths & Hbc & He & _ & Hc).
  { apply never_dispatched_run. unfold never_dispatched.
    destruct options as [[[?|]]|]; cbn; split_and!; try done;
      try (intros t Hin; by apply elem_of_nil in Hin);
      intros c k r Hl; by destruct c. }
  split_and!; try done.
  - intros key. unfold cached.
    destruct (get _ _) as [en|] eqn:Hg; [|done].
    by destruct (He _ _ Hg) as [-> _].
  - intros c k o Hl. specialize (Hc c k o Hl). unfold result. rewrite Hl.
    destruct (inherited _); [by subst o|].
    destruct Hc as [->| ->]; [by left|by right].
Qed.

(** ** A batch function that throws *)



Lemma step_own_schedulingFn w e :
  own_schedulingFn (this (step w e)) = own_schedulingFn (this w).
Proof.
  destruct e as [key|]; cbn [step].
  - unfold load, load_enter.
    destruct (get _ _) as [[|?]|]; [done..|]. by destruct (inherited _).
  - destruct (timers w) as [|t ts] eqn:Hts; [by rewrite fire_idle|].
    by destruct (fire_effect w t ts Hts) as (_ & _ & _ & _ & ->).
Qed.

Lemma run_own_schedulingFn es :
  ∀ w, own_schedulingFn (this (run es w)) = own_schedulingFn (this w).
Proof.
  induction es as [|e es IH]; intros w; [done|].
  etrans; [apply (IH (step w e))|apply step_own_schedulingFn].
Qed.






(** ** One promise for each call *)

Section Last.
Variable f : BatchFn.

(** After the firings of a window the cache holds, under each name, the
    promise of the last timer with that name. *)
Lemma fires_last ts :
  ∀ w, wf f w → dispatchable f w → timers w = ts →
    ∀ j t, ts !! j = Some t →
      (∀ j' t', j < j' → ts !! j' = Some t' →
         ToPropertyKey (call_key (timer_call t'))
         ≠ ToPropertyKey (call_key (timer_call t))) →
      get (promises (this (run (replicate (length ts) Fire) w)))
        (ToPropertyKey (call_key (timer_call t)))
      = Some (EPromise (length (thens w) + j)).
Proof.
  induction ts as [|t0 ts IH]; intros w Hw Hd Hts j t Hj Hlast; [done|].
  cbn [length replicate run foldl step].
  fold (run (replicate (length ts) Fire) (fire w)).
  destruct (fire_resumes f w t0 ts Hw Hd Hts)
    as (Hts1 & Haq1 & Hth1 & Hp1 & _).
  assert (wf f (fire w)) as Hw1 by by apply wf_fire.
  assert (dispatchable f (fire w)) as Hd1.
  { unfold dispatchable. by rewrite Haq1. }
  destruct j as [|j]; cbn in Hj.
  - injection Hj as ->.
    destruct (fires_spec f ts (fire w) Hw1 Hd1 Hts1)
      as (_ & _ & _ & _ & _ & _ & _ & Hg2 & _).
    rewrite Hg2, Hp1, Nat.add_0_r; [apply get_set_eq|].
    intros (t' & Hname & [j' Hj']%list_elem_of_lookup_1)%list_elem_of_fmap.
    apply (Hlast (S j') t'); [lia|done|done].
  - rewrite (IH (fire w) Hw1 Hd1 Hts1 j t Hj).
    + rewrite Hth1, length_app. cbn [length]. do 2 f_equal. lia.
    + intros j' t' Hlt Hj'. apply (Hlast (S j') t'); [lia|done].
Qed.

End Last.

(** X8: in the first window, with [plain] keys, every call of [load] makes
    a promise of its
    own, also when its key has been asked for already: after the window
    there are as many promises as calls, the [i]-th call has returned the
    [i]-th promise, which selects that call's key from the one query, and
    the cache keeps under each name the promise of the last call of the
    window with that name (the earlier ones are overwritten). *)
Theorem first_window_makes_a_promise_per_call
    (f : BatchFn) (options : option Options) (keys : list value) (q : fetch) :
  Forall plain keys →
  f (own_keys (first_requests (ToPropertyKey <$> keys))) = inr q →
  let w := run (window keys) (new_world (constructor (Some f) options)) in
  thens w = (λ k, (0, k)) <$> keys
  ∧ (∀ i k, keys !! i = Some k → calls w !! i = Some (k, Some (Return i)))
  ∧ (∀ i k, keys !! i = Some k →
       (∀ j k', i < j → keys !! j = Some k' →
          ToPropertyKey k' ≠ ToPropertyKey k) →
       get (promises (this w)) (ToPropertyKey k) = Some (EPromise i)).
Proof.
  intros Hplain%plain_ordinary Hq. cbn zeta. unfold window. rewrite run_app.
  set (w0 := new_world (constructor (Some f) options)).
  assert (wf f w0) as Hw0 by apply wf_new_world.
  assert (∀ k, cached (promises (this w0)) k = None) as Hnone by done.
  destruct (loads_spec keys Hplain w0)
    as (Haq & Hbf & Hqs & Hths & Hbs & Hcs & Hns & Hca & Hts).
  rewrite (armed_all _ _ _ _ Hnone) in Hts.
  change (timers w0) with (@nil Timer) in Hts. rewrite app_nil_l in Hts.
  change (length (calls w0)) with 0 in Hts.
  set (w1 := run (CallLoad <$> keys) w0) in *.
  assert (wf f w1) as Hw1 by by apply wf_run.
  assert (dispatchable f w1) as Hd1.
  { unfold dispatchable, Object_keys. rewrite Haq, Hns. cbn. eauto. }
  assert (length (timers w1) = length keys) as Hlen
    by by rewrite Hts, length_imap.
  replace (replicate (length keys) Fire)
    with (replicate (length (timers w1)) Fire) by by rewrite Hlen.
  destruct (fires_spec f (timers w1) w1 Hw1 Hd1 eq_refl)
    as (_ & _ & _ & Hth2 & Hc2 & _).
  pose proof (fires_last f (timers w1) w1 Hw1 Hd1 eq_refl) as Hlast.
  set (w2 := run _ w1) in *.
  assert (∀ i k, keys !! i = Some k →
            timers w1 !! i
            = Some {| timer_delay := delay (this_schedulingFn (this w0));
                      timer_call := {| call_key := k; call_index := i |} |})
    as Hti.
  { intros i k Hi. by rewrite Hts, list_lookup_imap, Hi. }
  split_and!.
  - rewrite Hth2, Hths, Hts, fmap_imap.
    exact (imap_const (λ k : value, (0, k)) keys).
  - intros i k Hi. pose proof (Hc2 i _ (Hti i k Hi)) as Hc.
    by rewrite Hths in Hc.
  - intros i k Hi Hafter.
    pose proof (Hlast i _ (Hti i k Hi)) as Hg. rewrite Hths in Hg.
    apply Hg. intros j t' Hlt Hj.
    destruct (keys !! j) as [k'|] eqn:Hk'.
    + rewrite (Hti j k' Hk') in Hj. injection Hj as <-. by eapply Hafter.
    + apply lookup_ge_None in Hk'. apply lookup_lt_Some in Hj. lia.
Qed.

Lemma first_window_makes_a_promise_per_call_witness :
  let keys := [VNum (Int 2); VNum (Int 1); VNum (Int 2)] in
  let w := run (window keys) (new_world (constructor (Some users) None)) in
  thens w = (λ k, (0, k)) <$> keys
  ∧ (∀ i k, keys !! i = Some k → calls w !! i = Some (k, Some (Return i)))
  ∧ (∀ i k, keys !! i = Some k →
       (∀ j k', i < j → keys !! j = Some k' →
          ToPropertyKey k' ≠ ToPropertyKey k) →
       get (promises (this w)) (ToPropertyKey k) = Some (EPromise i)).
Proof.
  apply (first_window_makes_a_promise_per_call users None
           [VNum (Int 2); VNum (Int 1); VNum (Int 2)]
           (Fulfils (filter (λ it, ToPropertyKey (id it) ∈ ["1"; "2"])
                       users_table))).
  - repeat constructor.
  - reflexivity.
Defined.

(** ** The scheduling function *)

Lemma step_delays d w e :
  delay (this_schedulingFn (this w)) = d →
  Forall (λ t, timer_delay t = d) (timers w) →
  Forall (λ t, timer_delay t = d) (timers (step w e)).
Proof.
  intros Hd Hts. destruct e as [key|]; cbn [step].
  - destruct (member (promises (this w)) key) as [m|] eqn:Hm.
    { by rewrite (load_member _ _ _ Hm). }
    rewrite load_timers by done. apply Forall_app. split; [done|].
    destruct (cached _ key); [constructor|]. by repeat constructor.
  - destruct (timers w) as [|t ts] eqn:Hts'; [by rewrite fire_idle, Hts'|].
    destruct (fire_effect w t ts Hts') as (-> & _).
    by apply Forall_cons in Hts as [_ ?].
Qed.

(** X9: the scheduling function is chosen once, by the constructor: every
    timer a loader ever arms carries the delay of the scheduling function
    passed in the options, and that of the default one, 0, when the options
    or their [schedulingFn] are missing. *)
Theorem timers_carry_the_delay_of_the_options
    (batchFn : option BatchFn) (options : option Options) (es : list event) :
  let w := run es (new_world (constructor batchFn options)) in
  Forall (λ t, timer_delay t
               = match options with
                 | Some {| options_schedulingFn := Some s |} => delay s
                 | _ => 0
                 end)
    (timers w).
Proof.
  cbn zeta. set (d := match options with
                      | Some {| options_schedulingFn := Some s |} => delay s
                      | _ => 0
                      end).
  set (w0 := new_world (constructor batchFn options)).
  assert (delay (this_schedulingFn (this w0)) = d) as Hd
    by by destruct options as [[[?|]]|].
  assert (Forall (λ t, timer_delay t = d) (timers w0)) as Hts by constructor.
  clearbody w0 d. revert w0 Hd Hts.
  induction es as [|e es IH]; intros w Hd Hts; [done|].
  apply (IH (step w e)); [|by apply step_delays].
  unfold this_schedulingFn. by rewrite step_own_schedulingFn.
Qed.

(** ** The first cache *)

Lemma first_keys_names keys : ∀ seen,
  ToPropertyKey <$> first_keys seen keys
  = distinct_from seen (ToPropertyKey <$> keys).
Proof.
  induction keys as [|k keys IH]; intros seen; cbn; [done|].
  case_decide; cbn; by rewrite IH.
Qed.

Lemma cache_load_hit key c p :
  get (cache_promises c) (ToPropertyKey key) = Some p →
  cache_load key c = (LoadedQuery p, c).
Proof. unfold cache_load. cbn zeta. by intros ->. Qed.

(** A key that names a member of [Object.prototype], and that the cache has
    no own property for, is answered with that member: no query is made and
    nothing is logged. *)
Lemma cache_load_member key c :
  get (cache_promises c) (ToPropertyKey key) = None →
  inherited (ToPropertyKey key) = true →
  cache_load key c = (LoadedMember (ToPropertyKey key), c).
Proof. unfold cache_load. cbn zeta. by intros -> ->. Qed.

Lemma cache_load_miss key c :
  ordinary key →
  get (cache_promises c) (ToPropertyKey key) = None →
  cache_load key c
  = (LoadedQuery (length (cache_queries c)),
     {| cache_promises :=
          set (cache_promises c) (ToPropertyKey key) (length (cache_queries c));
        cache_queries := cache_queries c ++ [key];
        cache_console :=
          cache_console c ++ [("SELECT * from users WHERE id =", key)] |}).
Proof. unfold ordinary, cache_load. cbn zeta. by intros -> ->. Qed.

Lemma cache_wf_new : cache_wf new_cache.
Proof. split; [done|]. intros p k Hp. by destruct p. Qed.

Lemma cache_load_spec key c :
  ordinary key → cache_wf c →
  cache_wf (cache_load key c).2
  ∧ (∃ p, (cache_load key c).1 = LoadedQuery p
          ∧ get (cache_promises (cache_load key c).2) (ToPropertyKey key)
            = Some p)
  ∧ (∀ name p, get (cache_promises c) name = Some p →
       get (cache_promises (cache_load key c).2) name = Some p).
Proof.
  intros Hord [Ha Hb].
  destruct (get (cache_promises c) (ToPropertyKey key)) as [p|] eqn:Hg.
  { rewrite (cache_load_hit _ _ _ Hg). split_and!; eauto. by split. }
  rewrite (cache_load_miss _ _ Hord Hg). cbn. split_and!.
  - split; cbn.
    + intros name p.
      destruct (decide (ToPropertyKey key = name)) as [<-|Hne].
      * rewrite get_set_eq. intros [= <-]. exists key.
        by rewrite lookup_app_r, Nat.sub_diag by lia.
      * rewrite get_set_ne by done. intros (k & Hk & Hn)%Ha.
        exists k. split; [by apply lookup_app_l_Some|done].
    + intros p k. rewrite lookup_snoc_Some.
      intros [[_ Hp]|[<- <-]]; [|apply get_set_eq].
      rewrite get_set_ne; [by apply Hb|].
      intros Heq. apply Hb in Hp. rewrite <-Heq in Hp. congruence.
  - eexists. split; [done|]. apply get_set_eq.
  - intros name p Hp. rewrite get_set_ne; [done|].
    intros <-. congruence.
Qed.

Lemma cache_loads_cons k keys c :
  cache_loads (k :: keys) c
  = ((cache_load k c).1 :: (cache_loads keys (cache_load k c).2).1,
     (cache_loads keys (cache_load k c).2).2).
Proof.
  cbn [cache_loads]. destruct (cache_load k c) as [p c1]. cbn [fst snd].
  by destruct (cache_loads keys c1) as [ps c2].
Qed.

Lemma cache_loads_spec keys : ∀ c,
  Forall ordinary keys → cache_wf c →
  cache_wf (cache_loads keys c).2
  ∧ length (cache_loads keys c).1 = length keys
  ∧ (∀ i k, keys !! i = Some k →
       ∃ p, (cache_loads keys c).1 !! i = Some (LoadedQuery p)
            ∧ get (cache_promises (cache_loads keys c).2) (ToPropertyKey k)
              = Some p)
  ∧ (∀ name p, get (cache_promises c) name = Some p →
       get (cache_promises (cache_loads keys c).2) name = Some p).
Proof.
  induction keys as [|k keys IH]; intros c Hord Hc.
  { cbn. split_and!; done. }
  apply Forall_cons in Hord as [Hk Hord].
  rewrite cache_loads_cons. cbn [fst snd].
  destruct (cache_load_spec k c Hk Hc) as (Hc1 & (p & Hp1 & Hg1) & Hm1).
  destruct (IH _ Hord Hc1) as (Hc2 & Hl2 & Hp2 & Hm2).
  split_and!.
  - done.
  - cbn. by rewrite Hl2.
  - intros [|i] k' Hi; cbn in Hi.
    + injection Hi as <-. exists p. cbn. rewrite Hp1. split; [done|].
      by apply Hm2.
    + by apply Hp2.
  - intros name p' Hp. by apply Hm2, Hm1.
Qed.

Lemma cache_loads_queries keys : ∀ c,
  Forall ordinary keys →
  cache_queries (cache_loads keys c).2
  = cache_queries c ++ first_keys (cache_promises c).*1 keys
  ∧ cache_console (cache_loads keys c).2
    = cache_console c
      ++ ((λ k, ("SELECT * from users WHERE id =", k))
          <$> first_keys (cache_promises c).*1 keys)
  ∧ (cache_promises (cache_loads keys c).2).*1
    = (cache_promises c).*1
      ++ distinct_from (cache_promises c).*1 (ToPropertyKey <$> keys).
Proof.
  induction keys as [|k keys IH]; intros c Hord.
  { cbn. by rewrite !app_nil_r. }
  apply Forall_cons in Hord as [Hk Hord].
  rewrite cache_loads_cons. cbn [fst snd first_keys fmap list_fmap distinct_from].
  destruct (IH (cache_load k c).2 Hord) as (Hq & Hl & Hn). rewrite Hq, Hl, Hn.
  clear IH Hq Hl Hn.
  destruct (get (cache_promises c) (ToPropertyKey k)) as [p|] eqn:Hg.
  - rewrite (cache_load_hit _ _ _ Hg).
    assert (ToPropertyKey k ∈ (cache_promises c).*1) as Hin
      by (apply get_is_Some; eauto).
    by rewrite !decide_True by done.
  - rewrite (cache_load_miss _ _ Hk Hg).
    cbn [cache_queries cache_console cache_promises snd].
    assert (ToPropertyKey k ∉ (cache_promises c).*1) as Hin
      by by apply get_None.
    rewrite set_names. rewrite !decide_False by done.
    cbn. by rewrite <-!app_assoc.
Qed.

(** X10: the first cache never queries the same user twice: over any
    sequence of calls with [plain] keys starting from the empty cache, the
    queries made (and the lines logged) are those of the first key of each
    property name, in the order of the calls; a later key with a name seen
    before makes no query, also when it is another value ([1] and ["1"]). *)
Theorem cache_queries_each_name_once (keys : list value) :
  Forall plain keys →
  let c := (cache_loads keys new_cache).2 in
  cache_queries c = first_keys [] keys
  ∧ ToPropertyKey <$> cache_queries c = first_requests (ToPropertyKey <$> keys)
  ∧ NoDup (ToPropertyKey <$> cache_queries c)
  ∧ cache_console c
    = (λ k, ("SELECT * from users WHERE id =", k)) <$> cache_queries c
  ∧ Object_keys (cache_promises c)
    = own_keys (first_requests (ToPropertyKey <$> keys)).
Proof.
  intros Hplain%plain_ordinary. cbn zeta.
  destruct (cache_loads_queries keys new_cache Hplain) as (Hq & Hl & Hn).
  cbn in Hq, Hl, Hn. unfold Object_keys.
  rewrite Hq, Hl, Hn, first_keys_names.
  split_and!; try done. apply first_requests_NoDup.
Qed.

Lemma cache_queries_each_name_once_witness :
  let keys := [VNum (Int 2); VNum (Int 1); VStr "2"; VNum (Int 1)] in
  let c := (cache_loads keys new_cache).2 in
  cache_queries c = [VNum (Int 2); VNum (Int 1)]
  ∧ ToPropertyKey <$> cache_queries c = ["2"; "1"]
  ∧ NoDup (ToPropertyKey <$> cache_queries c)
  ∧ cache_console c
    = (λ k, ("SELECT * from users WHERE id =", k)) <$> cache_queries c
  ∧ Object_keys (cache_promises c) = ["1"; "2"].
Proof.
  apply (cache_queries_each_name_once
           [VNum (Int 2); VNum (Int 1); VStr "2"; VNum (Int 1)]).
  repeat constructor.
Defined.

(** X11: the calls of the first cache share their promises by property
    name: with [plain] keys every call returns a query, two calls return
    the same query exactly when their keys have the same name, and the
    query a call returns is the one that was made for the first key of that
    name. *)
Theorem cache_shares_promises_by_name (keys : list value) :
  Forall plain keys →
  let ps := (cache_loads keys new_cache).1 in
  let c := (cache_loads keys new_cache).2 in
  length ps = length keys
  ∧ (∀ i k, keys !! i = Some k →
       ∃ p k', ps !! i = Some (LoadedQuery p)
               ∧ cache_queries c !! p = Some k'
               ∧ ToPropertyKey k' = ToPropertyKey k
               ∧ k' ∈ first_keys [] keys)
  ∧ (∀ i j ki kj, keys !! i = Some ki → keys !! j = Some kj →
       (ps !! i = ps !! j ↔ ToPropertyKey ki = ToPropertyKey kj)).
Proof.
  intros Hplain%plain_ordinary. cbn zeta.
  destruct (cache_loads_spec keys new_cache Hplain cache_wf_new)
    as ([Ha Hb] & Hlen & Hp & _).
  destruct (cache_loads_queries keys new_cache Hplain) as (Hq & _).
  cbn in Hq.
  split_and!.
  - done.
  - intros i k Hi. destruct (Hp i k Hi) as (p & Hpi & Hg).
    destruct (Ha _ _ Hg) as (k' & Hk' & Hname).
    exists p, k'. split_and!; try done.
    rewrite <-Hq. by eapply list_elem_of_lookup_2.
  - intros i j ki kj Hi Hj.
    destruct (Hp i ki Hi) as (pi & Hpi & Hgi).
    destruct (Hp j kj Hj) as (pj & Hpj & Hgj).
    rewrite Hpi, Hpj. split.
    + intros [= <-]. destruct (Ha _ _ Hgi) as (k & Hk & <-).
      destruct (Ha _ _ Hgj) as (k' & Hk' & <-). congruence.
    + intros Heq. rewrite Heq in Hgi. congruence.
Qed.

Lemma cache_shares_promises_by_name_witness :
  let keys := [VNum (Int 2); VNum (Int 1); VStr "2"] in
  let ps := (cache_loads keys new_cache).1 in
  let c := (cache_loads keys new_cache).2 in
  length ps = length keys
  ∧ (∀ i k, keys !! i = Some k →
       ∃ p k', ps !! i = Some (LoadedQuery p)
               ∧ cache_queries c !! p = Some k'
               ∧ ToPropertyKey k' = ToPropertyKey k
               ∧ k' ∈ first_keys [] keys)
  ∧ (∀ i j ki kj, keys !! i = Some ki → keys !! j = Some kj →
       (ps !! i = ps !! j ↔ ToPropertyKey ki = ToPropertyKey kj)).
Proof.
  apply (cache_shares_promises_by_name
           [VNum (Int 2); VNum (Int 1); VStr "2"]).
  repeat constructor.
Defined.

(** ** The class and the batching cache *)





(** ** What the components do with their props *)







(** ** What is logged *)

Lemma logged_step f w e :
  this_batchFn (this w) = Some f →
  console w
  = (λ ids, "SELECT * from users WHERE id in (" +:+ join "," ids +:+ ")")
    <$> batch_calls w →
  this_batchFn (this (step w e)) = Some f
  ∧ console (step w e)
    = (λ ids, "SELECT * from users WHERE id in (" +:+ join "," ids +:+ ")")
      <$> batch_calls (step w e).
Proof.
  intros Hf Hlog. destruct e as [key|]; cbn [step].
  - by destruct (load_frame key w) as (_ & -> & _ & _ & -> & -> & _).
  - destruct (timers w) as [|t ts] eqn:Hts; [by rewrite fire_idle|].
    destruct (fire_fired w t) as [q Hq|f' q Hq Hf' Hids|f' e Hq Hf' Hids|Hq Hf'].
    + by rewrite (fire_joins _ _ _ _ Hts Hq).
    + rewrite (fire_dispatches _ _ _ _ _ Hts Hq Hf' Hids). cbn.
      split; [done|]. by rewrite fmap_app, Hlog.
    + rewrite (fire_throws _ _ _ _ _ Hts Hq Hf' Hids). cbn.
      split; [done|]. by rewrite fmap_app, Hlog.
    + congruence.
Qed.

(** X16: a loader that has a batch function logs what it sends and nothing
    else: over its whole life the lines written by [console.log] are, in
    order, one line for each invocation of the batch function, made of the
    ids of that invocation joined by commas. *)
Theorem one_line_logged_for_each_batch
    (f : BatchFn) (options : option Options) (es : list event) :
  let w := run es (new_world (constructor (Some f) options)) in
  console w
  = (λ ids, "SELECT * from users WHERE id in (" +:+ join "," ids +:+ ")")
    <$> batch_calls w.
Proof.
  cbn zeta. set (w0 := new_world (constructor (Some f) options)).
  assert (this_batchFn (this w0) = Some f) as Hf by done.
  assert (console w0
          = (λ ids, "SELECT * from users WHERE id in (" +:+ join "," ids
                    +:+ ")") <$> batch_calls w0) as Hlog by done.
  clearbody w0. revert w0 Hf Hlog.
  induction es as [|e es IH]; intros w Hf Hlog; [done|].
  destruct (logged_step f w e Hf Hlog) as [Hf1 Hlog1].
  apply (IH _ Hf1 Hlog1).
Qed.

(** ** How many queries the first cache saves *)

Lemma distinct_from_length seen l : length (distinct_from seen l) ≤ length l.
Proof.
  revert seen. induction l as [|x l IH]; intros seen; cbn; [done|].
  case_decide; [specialize (IH seen)|specialize (IH (seen ++ [x]))]; cbn; lia.
Qed.

Lemma distinct_from_full seen l :
  length (distinct_from seen l) = length l
  ↔ NoDup l ∧ ∀ x, x ∈ l → x ∉ seen.
Proof.
  revert seen. induction l as [|x l IH]; intros seen; cbn.
  { split; [|done]. intros _. split; [constructor|].
    intros x Hx. by apply elem_of_nil in Hx. }
  case_decide as Hx.
  - pose proof (distinct_from_length seen l). split; [lia|].
    intros [_ Hall]. destruct (Hall x); [apply list_elem_of_here|done].
  - cbn. rewrite NoDup_cons. split.
    + intros [Hnd Hall]%Nat.succ_inj%IH. split_and!.
      * intros Hin. apply (Hall x Hin), elem_of_app. right.
        by apply list_elem_of_singleton.
      * done.
      * intros y [->|Hy]%elem_of_cons; [done|].
        intros Hs. apply (Hall y Hy), elem_of_app. by left.
    + intros [[Hxl Hnd] Hall]. f_equal. apply IH. split; [done|].
      intros y Hy [Hs|Hs]%elem_of_app.
      * by apply (Hall y); [apply list_elem_of_further|].
      * apply list_elem_of_singleton in Hs. by subst y.
Qed.

(** X17: with [plain] keys the first cache makes at most one query per
    call, and exactly as many queries as calls only when no property name
    is asked for twice: every repeated name is a query saved. *)
Theorem cache_saves_the_repeated_names (keys : list value) :
  Forall plain keys →
  let c := (cache_loads keys new_cache).2 in
  length (cache_queries c) ≤ length keys
  ∧ (length (cache_queries c) = length keys
     ↔ NoDup (ToPropertyKey <$> keys)).
Proof.
  intros Hplain%plain_ordinary. cbn zeta.
  destruct (cache_loads_queries keys new_cache Hplain) as (Hq & _).
  cbn in Hq. rewrite Hq.
  rewrite <-(length_fmap ToPropertyKey (first_keys [] keys)), first_keys_names.
  rewrite <-(length_fmap ToPropertyKey keys). split.
  - apply distinct_from_length.
  - rewrite distinct_from_full. split; [by intros [? _]|].
    intros Hnd. split; [done|]. intros x _ Hx. by apply elem_of_nil in Hx.
Qed.

Lemma cache_saves_the_repeated_names_witness :
  let keys := [VNum (Int 1); VNum (Int 1); VNum (Int 2)] in
  let c := (cache_loads keys new_cache).2 in
  length (cache_queries c) ≤ length keys
  ∧ (length (cache_queries c) = length keys
     ↔ NoDup (ToPropertyKey <$> keys)).
Proof.
  apply (cache_saves_the_repeated_names
           [VNum (Int 1); VNum (Int 1); VNum (Int 2)]).
  repeat constructor.
Defined.

(** ** Keys that name a member of [Object.prototype] *)

Lemma hides_no_member_step w e : hides_no_member w → hides_no_member (step w e).
Proof.
  intros Hw. pose proof Hw as [He Ht].
  assert (∀ (o : object entry) name v,
            (∀ n e, get o n = Some e → inherited n = false) →
            inherited name = false →
            ∀ n e, get (set o name v) n = Some e → inherited n = false)
    as Hset.
  { intros o name v Ho Hname n en.
    destruct (decide (name = n)) as [<-|Hne]; [done|].
    rewrite get_set_ne by done. apply Ho. }
  destruct e as [key|]; cbn [step].
  - destruct (member (promises (this w)) key) as [m|] eqn:Hm.
    { by rewrite (load_member _ _ _ Hm). }
    assert (inherited (ToPropertyKey key) = false) as Hkey.
    { unfold member in Hm.
      destruct (get _ (ToPropertyKey key)) as [en|] eqn:Hg; [by eapply He|].
      by destruct (inherited _). }
    split.
    + rewrite load_promises by done. destruct (cached _ key); [done|].
      by apply Hset.
    + rewrite load_timers by done. intros t [Hin|Hin]%elem_of_app; [by apply Ht|].
      destruct (cached _ key); [by apply elem_of_nil in Hin|].
      by apply list_elem_of_singleton in Hin as ->.
  - destruct (timers w) as [|t ts] eqn:Hts; [by rewrite fire_idle|].
    destruct (fire_effect w t ts Hts) as (Hts' & _ & Hp & _).
    split.
    + destruct Hp as [->|[p ->]]; [done|].
      apply Hset; [done|]. apply Ht, list_elem_of_here.
    + rewrite Hts'. intros t' Hin. by apply Ht, list_elem_of_further.
Qed.

Lemma hides_no_member_run es : ∀ w, hides_no_member w → hides_no_member (run es w).
Proof.
  induction es as [|e es IH]; intros w Hw; [done|].
  apply IH, hides_no_member_step, Hw.
Qed.

(** X18: a key whose property name is a member of [Object.prototype]
    ([constructor], [toString], [__proto__], ...) never reaches the batch:
    at any point of the life of a loader, with or without a batch function,
    [load(key)] finds that member where it looks for a promise and returns
    it at once.  The call is fulfilled with the member, no entry is made in
    the cache under that name, no timer is armed and nothing is sent to
    the batch function. *)
Theorem inherited_name_is_answered_with_the_member
    (StringToNumber : string → number)
    (batchFn : option BatchFn) (options : option Options)
    (es : list event) (key : value) :
  inherited (ToPropertyKey key) = true →
  let w := run es (new_world (constructor batchFn options)) in
  load key w
  = with_calls (calls w ++ [(key, Some (ReturnMember (ToPropertyKey key)))]) w
  ∧ result StringToNumber (load key w) (length (calls w))
    = FulfilledMember (ToPropertyKey key)
  ∧ (ToPropertyKey key ∉ Object_keys (promises (this (load key w))))
  ∧ timers (load key w) = timers w
  ∧ batch_calls (load key w) = batch_calls w.
Proof.
  intros Hin w.
  assert (hides_no_member w) as [He _].
  { apply hides_no_member_run. split.
    - by destruct options as [[[?|]]|].
    - intros t Ht. by apply elem_of_nil in Ht. }
  assert (get (promises (this w)) (ToPropertyKey key) = None) as Hget.
  { destruct (get _ _) as [en|] eqn:Hg; [|done].
    apply He in Hg. congruence. }
  assert (member (promises (this w)) key = Some (ToPropertyKey key)) as Hm.
  { unfold member. by rewrite Hget, Hin. }
  rewrite (load_member _ _ _ Hm). split_and!; try done.
  - unfold result. cbn. by rewrite lookup_app_r, Nat.sub_diag by lia.
  - cbn. unfold Object_keys. rewrite own_keys_Permutation.
    by apply get_None.
Qed.

Lemma inherited_name_is_answered_with_the_member_witness :
  let key := VStr "toString" in
  let w := run (window [VNum (Int 1)])
             (new_world (constructor (Some users) None)) in
  load key w
  = with_calls (calls w ++ [(key, Some (ReturnMember "toString"))]) w
  ∧ result decimal_StringToNumber (load key w) (length (calls w))
    = FulfilledMember "toString"
  ∧ ("toString" ∉ Object_keys (promises (this (load key w))))
  ∧ timers (load key w) = timers w
  ∧ batch_calls (load key w) = batch_calls w.
Proof.
  apply (inherited_name_is_answered_with_the_member decimal_StringToNumber
           (Some users) None (window [VNum (Int 1)]) (VStr "toString")).
  reflexivity.
Defined.
